(** * Forest inference (FIL): the CPU kernel and the dispatch layer

    A shallow embedding of

    - [cpp/include/cuml/experimental/fil/detail/infer_kernel/cpu.hpp]
      ([infer_kernel_cpu]), and
    - [cpp/include/cuml/experimental/fil/detail/infer.hpp] ([infer]),

    together with the properties the specification states about them.

    Conventions.

    - [index_type] is declared in [index_type.hpp], which is not among the
      sources; indices and counts are natural numbers and the development
      speaks of inputs whose index arithmetic does not wrap.
    - [io_type] / [threshold_type] are floating-point types in the
      library.  The kernel is embedded over any type with a zero and an
      addition ([Arith]); statements about sums additionally assume that
      addition is associative with neutral element zero ([ExactArith]),
      which is what the specification calls exact arithmetic.
    - The two [#pragma omp parallel for] loops are embedded as loops over
      the task (row) indices in increasing order.  For the tasks of the
      accumulation phase [schedule_independent] shows that any other order
      leaves the same workspace; the rows of the reduction phase work on
      disjoint slices of the workspace and of the output buffer.
    - Reading an array out of range is undefined in C++; the embedding
      reads the zero value there and drops an out-of-range write.
      [writes_in_bounds] shows that the accumulation phase stays inside
      the workspace.  Dividing by zero is undefined as well: statements
      about the grid are about positive [chunk_size] and [grove_size],
      and those about [tree_index % num_outputs] about a positive
      [num_outputs]. *)

From stdpp Require Import base numbers list.
From Stdlib Require Import ZArith QArith Qcanon Lia.

#[local] Open Scope nat_scope.

Set Default Proof Using "Type".

(** ** Arithmetic on leaf values *)

Class Arith (V : Type) := {
  vzero : V;
  vadd : V → V → V
}.

Class ExactArith (V : Type) `{Arith V} : Prop := {
  vadd_assoc : ∀ a b c : V, vadd a (vadd b c) = vadd (vadd a b) c;
  vadd_0_l : ∀ a : V, vadd vzero a = a;
  vadd_0_r : ∀ a : V, vadd a vzero = a
}.

#[export] Instance Z_Arith : Arith Z := {| vzero := 0%Z; vadd := Z.add |}.

(** [std::accumulate(first, last, init)] with the default [operator+]. *)
Definition accumulate {V} `{Arith V} (l : list V) (init : V) : V :=
  fold_left vadd l init.

(** The arithmetic sum of a sequence of values, from left to right. *)
Definition vsum {V} `{Arith V} (l : list V) : V := accumulate l vzero.

(** ** Arrays *)

(** [a[i]] as an rvalue. *)
Definition load {V} `{Arith V} (a : list V) (i : nat) : V :=
  default vzero (a !! i).

(** [a[i] += v]. *)
Definition add_at {V} `{Arith V} (a : list V) (i : nat) (v : V) : list V :=
  alter (λ x, vadd x v) i a.

(** The half-open index range of a loop
    [for (auto i = first; i < last; ++i)]. *)
Definition range (first last : nat) : list nat := seq first (last - first).

(** Modelled from the spec: [raft_proto::ceildiv] ([ceildiv.hpp] is not
    among the sources).  The specification writes the task count as
    [ceil(tree_count/grove_size) * ceil(row_count/chunk_size)]; this is the
    integer ceiling of the quotient. *)
Definition ceildiv (a b : nat) : nat := (a + b - 1) / b.

(** ** Write events

    The accumulation phase only ever executes [ws[i] += v].  A loop nest
    is therefore described by the sequence of pairs [(i, v)] it executes,
    and a workspace cell ends up holding the values aimed at it, added in
    program order. *)

Definition apply_writes {V} `{Arith V} (ws : list V) (evs : list (nat * V))
    : list V :=
  fold_left (λ ws e, add_at ws e.1 e.2) evs ws.

(** The values of the events aimed at index [i], in order. *)
Fixpoint vals_at {V} (i : nat) (evs : list (nat * V)) : list V :=
  match evs with
  | [] => []
  | e :: evs =>
      if decide (e.1 = i) then e.2 :: vals_at i evs else vals_at i evs
  end.

(** The indices a sequence of writes touches. *)
Definition targets {V} (evs : list (nat * V)) : list nat := map fst evs.

(** ** The CPU kernel *)

(** What [forest_t] offers to the kernel. *)
Record forest_t (root_t : Type) := {
  tree_count : nat;
  get_tree_root : nat → root_t
}.
Arguments tree_count {root_t} _.
Arguments get_tree_root {root_t} _ _.

(** [evaluate_tree.hpp] is not among the sources: the overloads of
    [evaluate_tree] the kernel calls are parameters.  The first two take
    the template argument [has_categorical_nodes], a tree root and a
    pointer to the row; the last two take, instead of the template
    argument, the non-local categorical storage.  With vector leaves the
    result is an index into the vector-output table, otherwise it is the
    leaf value. *)
Record evaluator (V root_t cat_t : Type) := {
  evaluate_tree_value : bool → root_t → list V → V;
  evaluate_tree_index : bool → root_t → list V → nat;
  evaluate_tree_value_nonlocal : root_t → list V → cat_t → V;
  evaluate_tree_index_nonlocal : root_t → list V → cat_t → nat
}.
Arguments evaluate_tree_value {V root_t cat_t} _ _ _ _.
Arguments evaluate_tree_index {V root_t cat_t} _ _ _ _.
Arguments evaluate_tree_value_nonlocal {V root_t cat_t} _ _ _ _.
Arguments evaluate_tree_index_nonlocal {V root_t cat_t} _ _ _ _.

(** One invocation [postproc(val, output_count, out, fourth)]: the memory
    visible from [val] at the time of the call, and the three other
    arguments ([out] as an offset into the caller's output buffer). *)
Record postproc_call (V : Type) := {
  pc_val : list V;
  pc_output_count : nat;
  pc_out : nat;
  pc_fourth : nat
}.
Arguments pc_val {V} _.
Arguments pc_output_count {V} _.
Arguments pc_out {V} _.
Arguments pc_fourth {V} _.

(** The [class_index]-th value a call hands over, when its values are
    [pc_fourth] elements apart. *)
Definition aggregate {V} `{Arith V} (call : postproc_call V)
    (class_index : nat) : V :=
  load (pc_val call) (class_index * pc_fourth call).

(** The state the kernel works on: its workspace, the caller's output
    buffer, and the postprocessor invocations made so far. *)
Record kernel_state (V : Type) := {
  workspace : list V;
  output : list V;
  calls : list (postproc_call V)
}.
Arguments workspace {V} _.
Arguments output {V} _.
Arguments calls {V} _.

Section Kernel.
Context {V : Type} `{Arith V} {root_t cat_t : Type}.

(** [postprocessor.hpp] is not among the sources: the postprocessor is a
    parameter.  It is given the memory visible from [val], the number of
    outputs and the fourth argument, and returns the values it stores at
    [out[0]], [out[1]], ...  What it may leave behind in the workspace is
    not read again by the kernel and is not part of the embedding. *)
Variable postproc : list V → nat → nat → list V.

Variable ev : evaluator V root_t cat_t.
Variable has_categorical_nodes : bool.
Variable forest : forest_t root_t.
Variable input : list V.
Variables row_count col_count num_outputs chunk_size grove_size : nat.
Variable vector_output_p : option (list V).
Variable categorical_data : option cat_t.

Definition num_tree : nat := tree_count forest.
Definition num_grove : nat := ceildiv num_tree grove_size.
Definition num_chunk : nat := ceildiv row_count chunk_size.
Definition workspace_size : nat := row_count * num_outputs * num_grove.
Definition task_count : nat := num_grove * num_chunk.

(** [input + row_index * col_count] *)
Definition row_ptr (row_index : nat) : list V :=
  drop (row_index * col_count) input.

(** The call of [evaluate_tree] for scalar leaves (lines 118-129). *)
Definition tree_output_value (tree_index row_index : nat) : V :=
  match categorical_data with
  | Some cd =>
      evaluate_tree_value_nonlocal ev
        (get_tree_root forest tree_index) (row_ptr row_index) cd
  | None =>
      evaluate_tree_value ev has_categorical_nodes
        (get_tree_root forest tree_index) (row_ptr row_index)
  end.

(** The same call for vector leaves. *)
Definition tree_output_index (tree_index row_index : nat) : nat :=
  match categorical_data with
  | Some cd =>
      evaluate_tree_index_nonlocal ev
        (get_tree_root forest tree_index) (row_ptr row_index) cd
  | None =>
      evaluate_tree_index ev has_categorical_nodes
        (get_tree_root forest tree_index) (row_ptr row_index)
  end.

(** Lines 130-150: what one tree adds to the workspace for one row. *)
Definition accumulate_tree
    (grove_index row_index : nat) (ws : list V) (tree_index : nat)
    : list V :=
  match vector_output_p with
  | Some vo =>
      let tree_output := tree_output_index tree_index row_index in
      fold_left
        (λ ws class_index,
           add_at ws
             (row_index * num_outputs * num_grove
              + class_index * num_grove
              + grove_index)
             (load vo (tree_output * num_outputs + class_index)))
        (range 0 num_outputs) ws
  | None =>
      let tree_output := tree_output_value tree_index row_index in
      add_at ws
        (row_index * num_outputs * num_grove
         + (tree_index mod num_outputs) * num_grove
         + grove_index)
        tree_output
  end.

(** Lines 105-153: the body of the loop over tasks. *)
Definition run_task (ws : list V) (task_index : nat) : list V :=
  let grove_index := task_index / num_chunk in
  let chunk_index := task_index mod num_chunk in
  let start_row := chunk_index * chunk_size in
  let end_row := (start_row + chunk_size) `min` row_count in
  let start_tree := grove_index * grove_size in
  let end_tree := (start_tree + grove_size) `min` num_tree in
  fold_left
    (λ ws row_index,
       fold_left (accumulate_tree grove_index row_index)
         (range start_tree end_tree) ws)
    (range start_row end_row) ws.

(** Lines 97-153: the zero-initialised workspace after all tasks. *)
Definition phase1 : list V :=
  fold_left run_task (range 0 task_count) (replicate workspace_size vzero).

(** Lines 163-171: the sum over the groves of one class of one row,
    stored in place in the first grove's cell. *)
Definition reduce_class (row_index : nat) (ws : list V) (class_index : nat)
    : list V :=
  let grove_offset :=
    row_index * num_outputs * num_grove + class_index * num_grove in
  <[grove_offset :=
      accumulate (take num_grove (drop grove_offset ws)) vzero]> ws.

(** Lines 157-179: the body of the loop over rows. *)
Definition process_row (st : kernel_state V) (row_index : nat)
    : kernel_state V :=
  let ws :=
    fold_left (reduce_class row_index) (range 0 num_outputs)
      (workspace st) in
  let val := drop (row_index * num_outputs * num_grove) ws in
  {| workspace := ws;
     output :=
       list_inserts (row_index * num_outputs)
         (postproc val num_outputs num_grove) (output st);
     calls :=
       calls st
       ++ [ {| pc_val := val;
               pc_output_count := num_outputs;
               pc_out := row_index * num_outputs;
               pc_fourth := num_grove |} ] |}.

(** [infer_kernel_cpu], once its workspace is allocated, started on the
    caller's output buffer [out]. *)
Definition infer_kernel_cpu (out : list V) : kernel_state V :=
  fold_left process_row (range 0 row_count)
    {| workspace := phase1; output := out; calls := [] |}.

(** *** The writes of the accumulation phase *)

(** The position of cell [(row, class, grove)] in the workspace. *)
Definition cell_index (row_index class_index grove_index : nat) : nat :=
  row_index * num_outputs * num_grove
  + class_index * num_grove
  + grove_index.

(** The writes of lines 130-150. *)
Definition tree_writes (grove_index row_index tree_index : nat)
    : list (nat * V) :=
  match vector_output_p with
  | Some vo =>
      map
        (λ class_index,
           (cell_index row_index class_index grove_index,
            load vo
              (tree_output_index tree_index row_index * num_outputs
               + class_index)))
        (range 0 num_outputs)
  | None =>
      [ (cell_index row_index (tree_index mod num_outputs) grove_index,
         tree_output_value tree_index row_index) ]
  end.

(** The trees of a grove and the rows of a chunk (lines 108-111). *)
Definition grove_trees (grove_index : nat) : list nat :=
  range (grove_index * grove_size)
    ((grove_index * grove_size + grove_size) `min` num_tree).

Definition chunk_rows (chunk_index : nat) : list nat :=
  range (chunk_index * chunk_size)
    ((chunk_index * chunk_size + chunk_size) `min` row_count).

(** The writes of one task, in program order. *)
Definition task_writes (task_index : nat) : list (nat * V) :=
  flat_map
    (λ row_index,
       flat_map (tree_writes (task_index / num_chunk) row_index)
         (grove_trees (task_index / num_chunk)))
    (chunk_rows (task_index mod num_chunk)).

(** The task in charge of a grove and of the chunk of a row. *)
Definition owner_task (row_index grove_index : nat) : nat :=
  grove_index * num_chunk + row_index / chunk_size.

(** *** What a forest contributes to a class of a row *)

(** The value tree [tree_index] adds to class [class_index] for row
    [row_index], if any: with vector leaves the [class_index]-th entry of
    its leaf vector, otherwise its leaf value when the tree belongs to
    the class. *)
Definition leaf_contribution (row_index class_index tree_index : nat)
    : list V :=
  match vector_output_p with
  | Some vo =>
      [ load vo
          (tree_output_index tree_index row_index * num_outputs
           + class_index) ]
  | None =>
      if decide (tree_index mod num_outputs = class_index)
      then [ tree_output_value tree_index row_index ]
      else []
  end.

(** The sum over all trees of the forest, in tree order. *)
Definition forest_sum (row_index class_index : nat) : V :=
  vsum (flat_map (leaf_contribution row_index class_index)
          (range 0 num_tree)).

(** The workspace once the rows before [k] are reduced. *)
Definition rows_reduced (k : nat) : list V :=
  fold_left
    (λ ws row_index,
       fold_left (reduce_class row_index) (range 0 num_outputs) ws)
    (range 0 k) phase1.

(** The postprocessor invocation of row [row_index] (lines 173-178). *)
Definition row_call (row_index : nat) : postproc_call V :=
  {| pc_val :=
       drop (row_index * num_outputs * num_grove)
         (rows_reduced (S row_index));
     pc_output_count := num_outputs;
     pc_out := row_index * num_outputs;
     pc_fourth := num_grove |}.

End Kernel.

(** *** The claim of exclusive writers, as the specification words it *)

(** "Each (row, class, grove) cell is written by exactly one task." *)
Definition each_cell_written_by_exactly_one_task
    {V} `{Arith V} {root_t cat_t : Type}
    (ev : evaluator V root_t cat_t) (has_categorical_nodes : bool)
    (forest : forest_t root_t) (input : list V)
    (row_count col_count num_outputs chunk_size grove_size : nat)
    (vector_output_p : option (list V)) (categorical_data : option cat_t)
    : Prop :=
  ∀ r c g,
    r < row_count → c < num_outputs → g < num_grove forest grove_size →
    ∃ t,
      (t < task_count forest row_count chunk_size grove_size
       ∧ cell_index forest num_outputs grove_size r c g
         ∈ targets
             (task_writes ev has_categorical_nodes forest input row_count
                col_count num_outputs chunk_size grove_size vector_output_p
                categorical_data t))
      ∧ ∀ t',
          t' < task_count forest row_count chunk_size grove_size →
          cell_index forest num_outputs grove_size r c g
            ∈ targets
                (task_writes ev has_categorical_nodes forest input row_count
                   col_count num_outputs chunk_size grove_size
                   vector_output_p categorical_data t') →
          t' = t.

(** *** A postprocessor that works on the values it is handed

    [postproc] computes its results from the [output_count] values found
    at [val[0]], [val[fourth]], [val[2 * fourth]], ..., and from nothing
    else. *)
Definition reads_at_stride {V} `{Arith V}
    (postproc : list V → nat → nat → list V)
    (transform : list V → list V) : Prop :=
  ∀ val output_count fourth,
    postproc val output_count fourth
    = transform (map (λ c, load val (c * fourth)) (range 0 output_count)).

(** ** The dispatch layer *)

(** The template arguments of a specialization of [inference::infer]:
    [has_categorical_nodes], and whether [vector_output_t] and
    [categorical_data_t] are pointer types rather than [std::nullptr_t]. *)
Record specialization := {
  spec_has_categorical_nodes : bool;
  spec_has_vector_leaves : bool;
  spec_has_nonlocal_categories : bool
}.

(** A call [inference::infer<D, has_categorical_nodes, forest_t>(...)].
    [None] stands for the literal [nullptr] (of type [std::nullptr_t]),
    [Some p] for the pointer [p] handed on.  [fc_args] are the arguments
    that every branch hands on as they are: [forest], [postproc],
    [output], [input], [row_count], [col_count], [output_count],
    [specified_chunk_size], [device] and [stream]. *)
Record forwarded_call (VO CD A : Type) := {
  fc_has_categorical_nodes : bool;
  fc_vector_output : option VO;
  fc_categorical_data : option CD;
  fc_args : A
}.
Arguments fc_has_categorical_nodes {VO CD A} _.
Arguments fc_vector_output {VO CD A} _.
Arguments fc_categorical_data {VO CD A} _.
Arguments fc_args {VO CD A} _.

Definition specialization_of {VO CD A} (call : forwarded_call VO CD A)
    : specialization :=
  {| spec_has_categorical_nodes := fc_has_categorical_nodes call;
     spec_has_vector_leaves := bool_decide (is_Some (fc_vector_output call));
     spec_has_nonlocal_categories :=
       bool_decide (is_Some (fc_categorical_data call)) |}.

(** [infer] (infer.hpp, lines 61-175): the calls of [inference::infer] it
    makes, in order.  A null pointer is [None]. *)
Definition infer {VO CD A} (args : A) (has_categorical_nodes : bool)
    (vector_output : option VO) (categorical_data : option CD)
    : list (forwarded_call VO CD A) :=
  match vector_output with
  | None =>
      match categorical_data with
      | None =>
          if negb has_categorical_nodes then
            [ {| fc_has_categorical_nodes := false;
                 fc_vector_output := None;
                 fc_categorical_data := None;
                 fc_args := args |} ]
          else
            [ {| fc_has_categorical_nodes := true;
                 fc_vector_output := None;
                 fc_categorical_data := None;
                 fc_args := args |} ]
      | Some _ =>
          [ {| fc_has_categorical_nodes := true;
               fc_vector_output := None;
               fc_categorical_data := categorical_data;
               fc_args := args |} ]
      end
  | Some _ =>
      match categorical_data with
      | None =>
          if negb has_categorical_nodes then
            [ {| fc_has_categorical_nodes := false;
                 fc_vector_output := vector_output;
                 fc_categorical_data := None;
                 fc_args := args |} ]
          else
            [ {| fc_has_categorical_nodes := true;
                 fc_vector_output := vector_output;
                 fc_categorical_data := None;
                 fc_args := args |} ]
      | Some _ =>
          [ {| fc_has_categorical_nodes := true;
               fc_vector_output := vector_output;
               fc_categorical_data := categorical_data;
               fc_args := args |} ]
      end
  end.

(** ** Failing calls *)

Inductive fil_error := ConfigurationError | DeviceError | AllocationError.

(** How a call ends: the error it raised, if any, and the state it left
    behind, the caller's output buffer included. *)
Record outcome (V : Type) := {
  raised : option fil_error;
  final : kernel_state V
}.
Arguments raised {V} _.
Arguments final {V} _.

(** A call that stops before the kernel has done anything. *)
Definition fails_early {V} (e : fil_error) (out : list V) : outcome V :=
  {| raised := Some e;
     final := {| workspace := []; output := out; calls := [] |} |}.

(** [infer_kernel_cpu] with its allocation: the constructor of
    [std::vector] (cpu.hpp, line 97) throws when the workspace cannot be
    obtained, which is before either loop. *)
Definition infer_kernel_cpu_alloc {V} `{Arith V} {root_t cat_t : Type}
    (can_allocate : nat → bool)
    (postproc : list V → nat → nat → list V)
    (ev : evaluator V root_t cat_t) (has_categorical_nodes : bool)
    (forest : forest_t root_t) (input : list V)
    (row_count col_count num_outputs chunk_size grove_size : nat)
    (vector_output_p : option (list V)) (categorical_data : option cat_t)
    (out : list V) : outcome V :=
  if can_allocate (workspace_size forest row_count num_outputs grove_size)
  then
    {| raised := None;
       final :=
         infer_kernel_cpu postproc ev has_categorical_nodes forest input
           row_count col_count num_outputs chunk_size grove_size
           vector_output_p categorical_data out |}
  else fails_early AllocationError out.

(** The arguments every branch of [infer] hands on, for the CPU. *)
Record infer_args (V root_t : Type) := {
  arg_forest : forest_t root_t;
  arg_postproc : list V → nat → nat → list V;
  arg_input : list V;
  arg_row_count : nat;
  arg_col_count : nat;
  arg_output_count : nat;
  arg_specified_chunk_size : option nat
}.
Arguments arg_forest {V root_t} _.
Arguments arg_postproc {V root_t} _.
Arguments arg_input {V root_t} _.
Arguments arg_row_count {V root_t} _.
Arguments arg_col_count {V root_t} _.
Arguments arg_output_count {V root_t} _.
Arguments arg_specified_chunk_size {V root_t} _.

(** What a call meets at run time. *)
Record environment := {
  configuration_consistent : bool;
  device_usable : bool;
  can_allocate : nat → bool
}.

(** Modelled from the spec: [inference::infer] for the CPU
    ([infer/cpu.hpp], [exceptions.hpp] and [cpu_introspection.hpp] are not
    among the sources).  Section 7 of the specification: a
    ConfigurationError when the flag/pointer combination is inconsistent,
    a DeviceError when the requested device or stream is unusable, an
    AllocationError when the workspace cannot be sized as requested, all
    "detected before any row is processed".  Section 4.2: chunk and grove
    size "both default to a cache/alignment-tuned constant, overridable";
    the constant is [hardware_constructive_interference_size]. *)
Definition inference_infer {V} `{Arith V} {root_t cat_t : Type}
    (env : environment) (hardware_constructive_interference_size : nat)
    (ev : evaluator V root_t cat_t)
    (call : forwarded_call (list V) cat_t (infer_args V root_t))
    (out : list V) : outcome V :=
  if negb (configuration_consistent env) then
    fails_early ConfigurationError out
  else if negb (device_usable env) then
    fails_early DeviceError out
  else
    infer_kernel_cpu_alloc (can_allocate env)
      (arg_postproc (fc_args call)) ev (fc_has_categorical_nodes call)
      (arg_forest (fc_args call)) (arg_input (fc_args call))
      (arg_row_count (fc_args call)) (arg_col_count (fc_args call))
      (arg_output_count (fc_args call))
      (default hardware_constructive_interference_size
         (arg_specified_chunk_size (fc_args call)))
      hardware_constructive_interference_size
      (fc_vector_output call) (fc_categorical_data call) out.

(** A whole call of [infer] on the CPU: the dispatch, then the calls it
    forwards, each started on the output buffer the previous one left. *)
Definition infer_cpu {V} `{Arith V} {root_t cat_t : Type}
    (env : environment) (hardware_constructive_interference_size : nat)
    (ev : evaluator V root_t cat_t)
    (args : infer_args V root_t) (has_categorical_nodes : bool)
    (vector_output : option (list V)) (categorical_data : option cat_t)
    (out : list V) : outcome V :=
  fold_left
    (λ oc call,
       match raised oc with
       | Some _ => oc
       | None =>
           inference_infer env hardware_constructive_interference_size ev
             call (output (final oc))
       end)
    (infer args has_categorical_nodes vector_output categorical_data)
    {| raised := None;
       final := {| workspace := []; output := out; calls := [] |} |}.

(** ** Forests of single leaves

    A tree that is just a leaf: its root holds the leaf value and the
    index of the leaf's vector in the vector-output table, and evaluating
    it yields the one or the other whatever the row. *)

Definition leaf_evaluator {V} : evaluator V (V * nat) unit :=
  {| evaluate_tree_value := λ _ root _, root.1;
     evaluate_tree_index := λ _ root _, root.2;
     evaluate_tree_value_nonlocal := λ root _ _, root.1;
     evaluate_tree_index_nonlocal := λ root _ _, root.2 |}.

Definition forest_of_leaves {V} `{Arith V} (leaves : list (V * nat))
    : forest_t (V * nat) :=
  {| tree_count := length leaves;
     get_tree_root := λ t, default (vzero, 0) (leaves !! t) |}.

(** The postprocessor that reports the values it is handed. *)
Definition identity_postproc {V} `{Arith V} (val : list V)
    (output_count fourth : nat) : list V :=
  map (λ c, load val (c * fourth)) (range 0 output_count).

(** Exact rational arithmetic, for the scenarios of the specification. *)
#[export] Instance Qc_Arith : Arith Qc :=
  {| vzero := Q2Qc 0; vadd := Qcplus |}.

(** The forest of scenario A: two trees, one output, leaves 1.0 and
    -0.5. *)
Definition scenario_A_forest : forest_t (Qc * nat) :=
  forest_of_leaves [ (Q2Qc 1, 0); (Q2Qc (-1 # 2), 0) ].

(** The forest of scenario B: one tree with a vector leaf for three
    classes, the third of three leaf vectors. *)
Definition scenario_B_forest : forest_t (Qc * nat) :=
  forest_of_leaves [ (Q2Qc 0, 2) ].

Definition scenario_B_vector_output : list Qc :=
  [ Q2Qc 1; Q2Qc 0; Q2Qc 0;
    Q2Qc 0; Q2Qc 1; Q2Qc 0;
    Q2Qc (1 # 10); Q2Qc (1 # 5); Q2Qc (7 # 10) ].

(** Four trees for three classes, in groves of two. *)
Definition four_trees : forest_t (Z * nat) :=
  forest_of_leaves [ (10%Z, 0); (20%Z, 0); (30%Z, 0); (40%Z, 0) ].

(** A machine on which no workspace can be obtained. *)
Definition no_memory : environment :=
  {| configuration_consistent := true;
     device_usable := true;
     can_allocate := λ n, bool_decide (n = 0) |}.

Definition four_trees_args : infer_args Z (Z * nat) :=
  {| arg_forest := four_trees;
     arg_postproc := identity_postproc;
     arg_input := [];
     arg_row_count := 2;
     arg_col_count := 0;
     arg_output_count := 3;
     arg_specified_chunk_size := None |}.


(** ** The accesses of the loops *)

(** The pairs (row, tree) on which a task calls [evaluate_tree], in
    program order (cpu.hpp, lines 113-129). *)
Definition task_evaluations {root_t : Type} (forest : forest_t root_t)
    (row_count chunk_size grove_size task_index : nat) : list (nat * nat) :=
  flat_map
    (λ row_index,
       map (λ tree_index, (row_index, tree_index))
         (grove_trees forest grove_size
            (task_index / num_chunk row_count chunk_size)))
    (chunk_rows row_count chunk_size
       (task_index mod num_chunk row_count chunk_size)).

(** All calls of [evaluate_tree] of the accumulation phase, task after
    task. *)
Definition evaluations {root_t : Type} (forest : forest_t root_t)
    (row_count chunk_size grove_size : nat) : list (nat * nat) :=
  flat_map (task_evaluations forest row_count chunk_size grove_size)
    (range 0 (task_count forest row_count chunk_size grove_size)).

(** The element of the workspace that the reduction of one class of one
    row stores to, [grove_offset], and the elements [std::accumulate]
    reads, from [grove_offset] to [grove_offset + num_grove] excluded
    (cpu.hpp, lines 163-171). *)
Definition reduction_store {root_t : Type} (forest : forest_t root_t)
    (num_outputs grove_size row_index class_index : nat) : nat :=
  row_index * num_outputs * num_grove forest grove_size
  + class_index * num_grove forest grove_size.

Definition reduction_loads {root_t : Type} (forest : forest_t root_t)
    (num_outputs grove_size row_index class_index : nat) : list nat :=
  range
    (reduction_store forest num_outputs grove_size row_index class_index)
    (reduction_store forest num_outputs grove_size row_index class_index
     + num_grove forest grove_size).

(** ** The parallel loops in another order *)

(** Lines 158-172: the reduction of all classes of one row. *)
Definition reduce_row {V} `{Arith V} {root_t : Type} (forest : forest_t root_t)
    (num_outputs grove_size : nat) (ws : list V) (row_index : nat) : list V :=
  fold_left (reduce_class forest num_outputs grove_size row_index)
    (range 0 num_outputs) ws.

(** [infer_kernel_cpu] with the iterations of its two parallel loops run
    one after the other in the orders [task_order] and [row_order]. *)
Definition infer_kernel_cpu_in_order {V} `{Arith V} {root_t cat_t : Type}
    (postproc : list V → nat → nat → list V)
    (ev : evaluator V root_t cat_t) (has_categorical_nodes : bool)
    (forest : forest_t root_t) (input : list V)
    (row_count col_count num_outputs chunk_size grove_size : nat)
    (vector_output_p : option (list V)) (categorical_data : option cat_t)
    (task_order row_order : list nat) (out : list V) : kernel_state V :=
  fold_left (process_row postproc forest num_outputs grove_size) row_order
    {| workspace :=
         fold_left
           (run_task ev has_categorical_nodes forest input row_count
              col_count num_outputs chunk_size grove_size vector_output_p
              categorical_data)
           task_order
           (replicate
              (workspace_size forest row_count num_outputs grove_size)
              vzero);
       output := out;
       calls := [] |}.

(** The invocations of the postprocessor when the rows [row_order] are
    processed in that order, starting from the workspace [ws]. *)
Fixpoint calls_in_order {V} `{Arith V} {root_t : Type}
    (forest : forest_t root_t) (num_outputs grove_size : nat)
    (row_order : list nat) (ws : list V) : list (postproc_call V) :=
  match row_order with
  | [] => []
  | row_index :: row_order =>
      {| pc_val :=
           drop (row_index * num_outputs * num_grove forest grove_size)
             (reduce_row forest num_outputs grove_size ws row_index);
         pc_output_count := num_outputs;
         pc_out := row_index * num_outputs;
         pc_fourth := num_grove forest grove_size |}
      :: calls_in_order forest num_outputs grove_size row_order
           (reduce_row forest num_outputs grove_size ws row_index)
  end.
(** * Properties *)

(** ** Exact arithmetic *)

#[export] Instance Z_ExactArith : ExactArith Z.
Proof. split; intros; simpl; lia. Qed.

#[export] Instance Qc_ExactArith : ExactArith Qc.
Proof.
  split; intros; simpl.
  - apply Qcplus_assoc.
  - apply Qcplus_0_l.
  - apply Qcplus_0_r.
Qed.

(** ** Write events *)

Section Writes.
Context {V : Type} `{Arith V}.

Lemma length_add_at (ws : list V) i v : length (add_at ws i v) = length ws.
Proof. apply length_alter. Qed.

Lemma load_add_at (ws : list V) i j v :
  j < length ws →
  load (add_at ws i v) j
  = if decide (i = j) then vadd (load ws j) v else load ws j.
Proof.
  intros Hj. unfold load, add_at.
  destruct (lookup_lt_is_Some_2 ws j Hj) as [x Hx].
  case_decide as Hij.
  - subst i. rewrite list_lookup_alter_eq, Hx. reflexivity.
  - rewrite list_lookup_alter_ne by done. reflexivity.
Qed.

Lemma apply_writes_cons (ws : list V) e evs :
  apply_writes ws (e :: evs) = apply_writes (add_at ws e.1 e.2) evs.
Proof. reflexivity. Qed.

Lemma length_apply_writes evs : ∀ ws : list V,
  length (apply_writes ws evs) = length ws.
Proof.
  induction evs as [|e evs IH]; intros ws; [done|].
  rewrite apply_writes_cons, IH. apply length_add_at.
Qed.

Lemma apply_writes_app (ws : list V) evs1 evs2 :
  apply_writes ws (evs1 ++ evs2) = apply_writes (apply_writes ws evs1) evs2.
Proof. apply fold_left_app. Qed.

Lemma load_apply_writes evs : ∀ (ws : list V) j,
  j < length ws →
  load (apply_writes ws evs) j = accumulate (vals_at j evs) (load ws j).
Proof.
  induction evs as [|[i v] evs IH]; intros ws j Hj; [done|].
  rewrite apply_writes_cons, IH by (by rewrite length_add_at).
  rewrite load_add_at by done. simpl. by case_decide.
Qed.

Lemma vals_at_app i (evs1 evs2 : list (nat * V)) :
  vals_at i (evs1 ++ evs2) = vals_at i evs1 ++ vals_at i evs2.
Proof.
  induction evs1 as [|e evs1 IH]; simpl; [done|].
  case_decide; simpl; by rewrite IH.
Qed.

Lemma vals_at_flat_map {A} i (f : A → list (nat * V)) l :
  vals_at i (flat_map f l) = flat_map (λ x, vals_at i (f x)) l.
Proof.
  induction l as [|x l IH]; simpl; [done|].
  by rewrite vals_at_app, IH.
Qed.

(** A loop whose body is a sequence of writes is a sequence of writes. *)
Lemma fold_left_apply_writes {A} (body : list V → A → list V)
    (f : A → list (nat * V)) l :
  (∀ ws x, body ws x = apply_writes ws (f x)) →
  ∀ ws, fold_left body l ws = apply_writes ws (flat_map f l).
Proof.
  intros Hbody. induction l as [|x l IH]; intros ws; simpl; [done|].
  by rewrite apply_writes_app, IH, Hbody.
Qed.

Lemma vals_at_not_target i (evs : list (nat * V)) :
  i ∉ targets evs → vals_at i evs = [].
Proof.
  induction evs as [|e evs IH]; simpl; [done|].
  rewrite not_elem_of_cons. intros [Hne Hnot].
  case_decide; [congruence|]. by apply IH.
Qed.

Lemma load_apply_writes_frame evs (ws : list V) j :
  j ∉ targets evs → load (apply_writes ws evs) j = load ws j.
Proof.
  revert ws. induction evs as [|[i v] evs IH]; intros ws; [done|].
  change (targets ((i, v) :: evs)) with (i :: targets evs).
  rewrite not_elem_of_cons. intros [Hne Hnot].
  rewrite apply_writes_cons, IH by done.
  unfold load, add_at. by rewrite list_lookup_alter_ne.
Qed.

End Writes.

(** ** Sums and ranges *)

Section Sums.
Context {V : Type} `{ExactArith V}.

Lemma accumulate_init (l : list V) a :
  accumulate l a = vadd a (vsum l).
Proof using Type*.
  unfold vsum, accumulate. revert a.
  induction l as [|x l IH]; intros a; simpl.
  - by rewrite vadd_0_r.
  - rewrite IH, (IH (vadd vzero x)), vadd_0_l. by rewrite vadd_assoc.
Qed.

Lemma vsum_nil : vsum (@nil V) = vzero.
Proof using Type*. reflexivity. Qed.

Lemma vsum_app (l1 l2 : list V) : vsum (l1 ++ l2) = vadd (vsum l1) (vsum l2).
Proof using Type*.
  unfold vsum at 1. unfold accumulate. rewrite fold_left_app.
  apply accumulate_init.
Qed.

Lemma vsum_cons x (l : list V) : vsum (x :: l) = vadd x (vsum l).
Proof using Type*.
  change (x :: l) with ([x] ++ l). rewrite vsum_app.
  unfold vsum at 1. simpl. by rewrite vadd_0_l.
Qed.

(** Summing the partial sums of consecutive blocks is summing the
    whole. *)
Lemma vsum_flat_map {A} (f : A → list V) l :
  vsum (map (λ x, vsum (f x)) l) = vsum (flat_map f l).
Proof using Type*.
  induction l as [|x l IH]; simpl; [done|].
  by rewrite vsum_cons, vsum_app, IH.
Qed.

End Sums.

Lemma flat_map_nil {A B} (f : A → list B) l :
  (∀ x, x ∈ l → f x = []) → flat_map f l = [].
Proof.
  induction l as [|x l IH]; simpl; intros Hf; [done|].
  rewrite Hf by left. apply IH. intros y Hy. apply Hf. by right.
Qed.

(** A loop over [first .. first+n-1] in which only iteration [k]
    contributes. *)
Lemma flat_map_seq_single {B} (f : nat → list B) first n k :
  first ≤ k < first + n →
  (∀ x, x ≠ k → f x = []) →
  flat_map f (seq first n) = f k.
Proof.
  revert first. induction n as [|n IH]; intros first Hk Hf; [lia|].
  simpl. destruct (decide (first = k)) as [->|Hne].
  - rewrite flat_map_nil; [by rewrite app_nil_r|].
    intros x Hx. apply Hf. apply elem_of_seq in Hx. lia.
  - rewrite (Hf first) by done. simpl. apply IH; [lia|done].
Qed.

Lemma flat_map_seq_none {B} (f : nat → list B) first n :
  (∀ x, first ≤ x < first + n → f x = []) →
  flat_map f (seq first n) = [].
Proof.
  intros Hf. apply flat_map_nil. intros x Hx. apply Hf.
  apply elem_of_seq in Hx. lia.
Qed.

Lemma flat_map_ext_in {A B} (f g : A → list B) l :
  (∀ x, x ∈ l → f x = g x) → flat_map f l = flat_map g l.
Proof.
  induction l as [|x l IH]; simpl; intros Hfg; [done|].
  rewrite Hfg by left. f_equal. apply IH. intros y Hy. apply Hfg. by right.
Qed.

Lemma flat_map_flat_map {A B C} (f : A → list B) (g : B → list C) l :
  flat_map g (flat_map f l) = flat_map (λ x, flat_map g (f x)) l.
Proof.
  induction l as [|x l IH]; simpl; [done|].
  by rewrite flat_map_app, IH.
Qed.

Lemma flat_map_singleton {A B} (f : A → B) l :
  flat_map (λ x, [f x]) l = map f l.
Proof. induction l as [|x l IH]; simpl; [done|]. by rewrite IH. Qed.

(** ** Ceiling division and the grid *)

Lemma lt_ceildiv a b g : 0 < b → g < ceildiv a b ↔ g * b < a.
Proof.
  intros Hb. unfold ceildiv. split; intros Hg.
  - destruct (decide (g * b < a)) as [|Hge]; [done|]. exfalso.
    assert ((a + b - 1) / b < S g); [|lia].
    apply Nat.Div0.div_lt_upper_bound. lia.
  - assert (S g ≤ (a + b - 1) / b); [|lia].
    apply Nat.div_le_lower_bound; lia.
Qed.

Lemma ceildiv_0 a b : 0 < b → ceildiv a b = 0 ↔ a = 0.
Proof.
  intros Hb. pose proof (lt_ceildiv a b 0 Hb) as Hlt. lia.
Qed.

(** Consecutive blocks of [size] elements, the last one cut at [total],
    cover [0 .. total-1] in order. *)
Lemma blocks_cover size total k :
  0 < size →
  flat_map (λ g, range (g * size) ((g * size + size) `min` total)) (seq 0 k)
  = seq 0 ((k * size) `min` total).
Proof.
  intros Hs. induction k as [|k IH]; [done|].
  rewrite seq_S, flat_map_app, IH. simpl. rewrite app_nil_r.
  unfold range.
  destruct (decide (k * size ≤ total)) as [Hle|Hgt].
  - replace ((k * size) `min` total) with (k * size) by lia.
    rewrite <-seq_app. f_equal. lia.
  - replace ((k * size + size) `min` total - k * size) with 0 by lia.
    simpl. rewrite app_nil_r. f_equal. lia.
Qed.

Lemma blocks_cover_all size total :
  0 < size →
  flat_map (λ g, range (g * size) ((g * size + size) `min` total))
    (seq 0 (ceildiv total size))
  = seq 0 total.
Proof.
  intros Hs. rewrite blocks_cover by done. f_equal.
  destruct (decide (total ≤ ceildiv total size * size)); [lia|].
  pose proof (lt_ceildiv total size (ceildiv total size) Hs). lia.
Qed.

Lemma elem_of_range x first last : x ∈ range first last ↔ first ≤ x < last.
Proof. unfold range. rewrite elem_of_seq. lia. Qed.

(** The block of [size] elements that holds [x]. *)
Lemma elem_of_block size total b x :
  0 < size → x < total →
  x ∈ range (b * size) ((b * size + size) `min` total) ↔ b = x / size.
Proof.
  intros Hs Hx. rewrite elem_of_range. split.
  - intros [Hlo Hhi]. apply Nat.div_unique with (x - b * size); lia.
  - intros ->. pose proof (Nat.Div0.mul_div_le x size).
    pose proof (Nat.mul_succ_div_gt x size). lia.
Qed.

Lemma block_index_lt size total x :
  0 < size → x < total → x / size < ceildiv total size.
Proof.
  intros Hs Hx. apply lt_ceildiv; [done|].
  pose proof (Nat.Div0.mul_div_le x size). lia.
Qed.

(** A task index is a grove index and a chunk index. *)
Lemma task_index_split C t g k :
  k < C → t / C = g ∧ t mod C = k ↔ t = g * C + k.
Proof.
  intros Hk. split.
  - intros [<- <-]. rewrite (Nat.div_mod_eq t C) at 1. lia.
  - intros ->. split.
    + symmetry. apply Nat.div_unique with k; lia.
    + symmetry. apply Nat.mod_unique with g; lia.
Qed.

Lemma task_index_bounds G C t :
  t < G * C → t / C < G ∧ t mod C < C.
Proof.
  intros Ht. assert (0 < C) by (destruct C; lia). split.
  - apply Nat.Div0.div_lt_upper_bound. lia.
  - apply Nat.mod_upper_bound. lia.
Qed.

(** ** Slices *)

Lemma fold_left_snoc {A B} (f : A → B → A) l x a :
  fold_left f (l ++ [x]) a = f (fold_left f l a) x.
Proof. by rewrite fold_left_app. Qed.

Lemma take_drop_loads {V} `{Arith V} (a : list V) first n :
  first + n ≤ length a →
  take n (drop first a) = map (λ i, load a (first + i)) (seq 0 n).
Proof.
  intros Hlen. apply list_eq. intros i.
  rewrite list_lookup_fmap.
  destruct (decide (i < n)) as [Hi|Hi].
  - rewrite lookup_take_lt, lookup_drop, lookup_seq_lt by done. simpl.
    unfold load.
    destruct (lookup_lt_is_Some_2 a (first + i)) as [x ->]; [lia|done].
  - rewrite lookup_take_ge, lookup_seq_ge by lia. done.
Qed.

Lemma load_drop {V} `{Arith V} (a : list V) first i :
  load (drop first a) i = load a (first + i).
Proof. unfold load. by rewrite lookup_drop. Qed.

Lemma load_nil {V} `{Arith V} i : load (@nil V) i = vzero.
Proof. done. Qed.

(** ** Targets and filters *)

Lemma elem_of_targets_flat_map {A V} (f : A → list (nat * V)) l i :
  i ∈ targets (flat_map f l) ↔ ∃ x, x ∈ l ∧ i ∈ targets (f x).
Proof.
  unfold targets. induction l as [|x l IH]; simpl.
  - split; [by intros ?%elem_of_nil|by intros (? & ?%elem_of_nil & _)].
  - rewrite map_app, elem_of_app, IH. split.
    + intros [Hi|(y & Hy & Hi)]; [exists x|exists y]; split; try done.
      * by left.
      * by right.
    + intros (y & Hy & Hi). apply elem_of_cons in Hy as [->|Hy]; [by left|].
      right. by exists y.
Qed.

Lemma elem_of_targets_vals_at {V} i (evs : list (nat * V)) :
  vals_at i evs ≠ [] → i ∈ targets evs.
Proof.
  intros Hne. destruct (decide (i ∈ targets evs)) as [|Hnot]; [done|].
  destruct Hne. unfold targets in Hnot. clear -Hnot.
  induction evs as [|e evs IH]; simpl; [done|].
  simpl in Hnot. apply not_elem_of_cons in Hnot as [Hne Hnot].
  case_decide; [congruence|]. by apply IH.
Qed.

Lemma flat_map_decide_filter {A B} (P : A → Prop) `{∀ x, Decision (P x)}
    (f : A → B) l :
  flat_map (λ x, if decide (P x) then [f x] else []) l = map f (filter P l).
Proof.
  induction l as [|x l IH]; simpl; [done|].
  rewrite filter_cons. case_decide; simpl; by rewrite IH.
Qed.

Lemma flat_map_map {A B C} (f : B → list C) (g : A → B) l :
  flat_map f (map g l) = flat_map (λ x, f (g x)) l.
Proof. induction l as [|x l IH]; simpl; [done|]. by rewrite IH. Qed.

Lemma fold_left_ext_in {A B} (f g : A → B → A) l a :
  (∀ a x, x ∈ l → f a x = g a x) → fold_left f l a = fold_left g l a.
Proof.
  revert a. induction l as [|x l IH]; intros a Hfg; simpl; [done|].
  rewrite Hfg by left. apply IH. intros a' y Hy. apply Hfg. by right.
Qed.

(** Storing [n] values per row, row after row, fills the first rows of a
    buffer and leaves the rest. *)
Lemma fold_left_list_inserts {V} (vals : nat → list V) n k : ∀ out,
  (∀ r, r < k → length (vals r) = n) →
  k * n ≤ length out →
  fold_left (λ o r, list_inserts (r * n) (vals r) o) (seq 0 k) out
  = flat_map vals (seq 0 k) ++ drop (k * n) out.
Proof.
  induction k as [|k IH]; intros out Hlen Hout; [done|].
  rewrite seq_S, fold_left_snoc, flat_map_app, Nat.add_0_l, IH by (auto || lia).
  simpl. rewrite app_nil_r.
  assert (length (flat_map vals (seq 0 k)) = k * n) as Hk.
  { clear -Hlen. induction k as [|k IH]; [done|].
    rewrite seq_S, flat_map_app, length_app, IH by auto. simpl.
    rewrite app_nil_r, Hlen by lia. lia. }
  rewrite <-(Nat.add_0_r (k * n)) at 1. rewrite <-Hk at 1.
  rewrite list_inserts_app_r, <-app_assoc. f_equal.
  rewrite <-(take_drop n (drop (k * n) out)) at 1.
  rewrite list_inserts_0_r.
  - by rewrite drop_drop, Nat.add_comm.
  - rewrite length_take, length_drop, Hlen by lia. lia.
Qed.

(** ** Reordering writes *)

(** The workspace a sequence of writes leaves depends only on the values
    aimed at each index, in their order. *)
Lemma apply_writes_ext {V} `{Arith V} (ws : list V) evs evs' :
  (∀ j, vals_at j evs = vals_at j evs') →
  apply_writes ws evs = apply_writes ws evs'.
Proof.
  intros Hvals. apply list_eq. intros j.
  destruct (decide (j < length ws)) as [Hj|Hj].
  - pose proof (load_apply_writes evs ws j Hj) as Hl.
    pose proof (load_apply_writes evs' ws j Hj) as Hl'.
    rewrite <-Hvals, <-Hl in Hl'. unfold load in Hl'.
    destruct (lookup_lt_is_Some_2 (apply_writes ws evs) j) as [x Hx];
      [by rewrite length_apply_writes|].
    destruct (lookup_lt_is_Some_2 (apply_writes ws evs') j) as [y Hy];
      [by rewrite length_apply_writes|].
    rewrite Hx, Hy in Hl' |- *. simpl in Hl'. by rewrite Hl'.
  - rewrite !lookup_ge_None_2; [done|rewrite length_apply_writes; lia..].
Qed.

(** A loop in which at most one iteration contributes may run in any
    order. *)
Lemma flat_map_perm_single {A B} (f : A → list B) l l' :
  l ≡ₚ l' →
  (∀ x y, x ∈ l → y ∈ l → f x ≠ [] → f y ≠ [] → x = y) →
  flat_map f l = flat_map f l'.
Proof.
  induction 1 as [|x l l' Hperm IH|x y l|l l' l'' Hperm IH Hperm' IH'];
    intros Hone.
  - done.
  - simpl. f_equal. apply IH. intros a b Ha Hb. apply Hone; by right.
  - simpl. destruct (f x) as [|bx lx] eqn:Hx; [done|].
    destruct (f y) as [|by' ly] eqn:Hy; [done|].
    assert (y = x) as ->.
    { apply Hone; [by left|right; by left|by rewrite Hy|by rewrite Hx]. }
    rewrite Hx in Hy. by simplify_eq.
  - rewrite IH by done. apply IH'. intros a b Ha Hb.
    apply Hone; by rewrite Hperm.
Qed.

(** ** The accumulation phase *)

Section KernelFacts.
Context {V : Type} `{Arith V} {root_t cat_t : Type}.
Variable postproc : list V → nat → nat → list V.
Variable ev : evaluator V root_t cat_t.
Variable has_categorical_nodes : bool.
Variable forest : forest_t root_t.
Variable input : list V.
Variables row_count col_count num_outputs chunk_size grove_size : nat.
Variable vector_output_p : option (list V).
Variable categorical_data : option cat_t.

(** Unfolding, with the names of the kernel's definitions. *)
Ltac unfold_grid :=
  try unfold cell_index; try unfold workspace_size; try unfold task_count;
  try unfold owner_task; try unfold grove_trees; try unfold chunk_rows.
Ltac unfold_grid_in H :=
  try unfold cell_index in H; try unfold workspace_size in H;
  try unfold task_count in H; try unfold owner_task in H;
  try unfold grove_trees in H; try unfold chunk_rows in H.
Ltac unfold_counts :=
  try unfold num_grove; try unfold num_chunk; try unfold num_tree.
Ltac unfold_counts_in H :=
  try unfold num_grove in H; try unfold num_chunk in H;
  try unfold num_tree in H.
Ltac unfold_tree :=
  try unfold accumulate_tree; try unfold tree_writes;
  try unfold leaf_contribution.
Ltac unfold_task := try unfold run_task; try unfold task_writes.
Ltac unfold_phase1 := unfold phase1.
Ltac unfold_phase2 :=
  try unfold infer_kernel_cpu; try unfold row_call;
  try unfold rows_reduced; try unfold process_row.
Ltac unfold_reduce_class := unfold reduce_class.
Ltac unfold_forest_sum := unfold forest_sum.

Local Abbreviation num_tree := (num_tree forest).
Local Abbreviation num_grove := (num_grove forest grove_size).
Local Abbreviation num_chunk := (num_chunk row_count chunk_size).
Local Abbreviation workspace_size :=
  (workspace_size forest row_count num_outputs grove_size).
Local Abbreviation task_count :=
  (task_count forest row_count chunk_size grove_size).
Local Abbreviation cell_index := (cell_index forest num_outputs grove_size).
Local Abbreviation tree_output_value :=
  (tree_output_value ev has_categorical_nodes forest input col_count
     categorical_data).
Local Abbreviation tree_output_index :=
  (tree_output_index ev has_categorical_nodes forest input col_count
     categorical_data).
Local Abbreviation accumulate_tree :=
  (accumulate_tree ev has_categorical_nodes forest input col_count
     num_outputs grove_size vector_output_p categorical_data).
Local Abbreviation run_task :=
  (run_task ev has_categorical_nodes forest input row_count col_count
     num_outputs chunk_size grove_size vector_output_p categorical_data).
Local Abbreviation phase1 :=
  (phase1 ev has_categorical_nodes forest input row_count col_count
     num_outputs chunk_size grove_size vector_output_p categorical_data).
Local Abbreviation reduce_class := (reduce_class forest num_outputs grove_size).
Local Abbreviation process_row :=
  (process_row postproc forest num_outputs grove_size).
Local Abbreviation infer_kernel_cpu :=
  (infer_kernel_cpu postproc ev has_categorical_nodes forest input row_count
     col_count num_outputs chunk_size grove_size vector_output_p
     categorical_data).
Local Abbreviation tree_writes :=
  (tree_writes ev has_categorical_nodes forest input col_count num_outputs
     grove_size vector_output_p categorical_data).
Local Abbreviation grove_trees := (grove_trees forest grove_size).
Local Abbreviation chunk_rows := (chunk_rows row_count chunk_size).
Local Abbreviation task_writes :=
  (task_writes ev has_categorical_nodes forest input row_count col_count
     num_outputs chunk_size grove_size vector_output_p categorical_data).
Local Abbreviation owner_task := (owner_task row_count chunk_size).
Local Abbreviation leaf_contribution :=
  (leaf_contribution ev has_categorical_nodes forest input col_count
     num_outputs vector_output_p categorical_data).
Local Abbreviation forest_sum :=
  (forest_sum ev has_categorical_nodes forest input col_count num_outputs
     vector_output_p categorical_data).
Local Abbreviation rows_reduced :=
  (rows_reduced ev has_categorical_nodes forest input row_count col_count
     num_outputs chunk_size grove_size vector_output_p categorical_data).
Local Abbreviation row_call :=
  (row_call ev has_categorical_nodes forest input row_count col_count
     num_outputs chunk_size grove_size vector_output_p categorical_data).

(** *** Cells *)

Lemma cell_index_inj r c g r' c' g' :
  c < num_outputs → c' < num_outputs → g < num_grove → g' < num_grove →
  cell_index r c g = cell_index r' c' g' →
  r = r' ∧ c = c' ∧ g = g'.
Proof.
  unfold_grid. generalize num_grove. intros G Hc Hc' Hg Hg' Heq.
  destruct (Nat.div_mod_unique G (r * num_outputs + c) (r' * num_outputs + c')
              g g') as [Hrc ->]; [done|done|lia|].
  destruct (Nat.div_mod_unique num_outputs r r' c c') as [-> ->];
    [done|done|lia|done].
Qed.

Lemma cell_index_lt r c g :
  r < row_count → c < num_outputs → g < num_grove →
  cell_index r c g < workspace_size.
Proof.
  unfold_grid. generalize num_grove. intros G Hr Hc Hg.
  assert ((r * num_outputs + c) * G + g < row_count * num_outputs * G);
    [|lia].
  assert (r * num_outputs + c + 1 ≤ row_count * num_outputs) by nia.
  nia.
Qed.

(** *** The loops are their writes *)

Lemma accumulate_tree_writes g r ws t :
  accumulate_tree g r ws t = apply_writes ws (tree_writes g r t).
Proof.
  unfold_tree.
  destruct vector_output_p as [vo|]; [|done].
  generalize (range 0 num_outputs). intros l. revert ws.
  induction l as [|c l IH]; intros ws; [done|].
  simpl. by rewrite IH.
Qed.

Lemma run_task_writes ws t : run_task ws t = apply_writes ws (task_writes t).
Proof.
  unfold_task. cbv zeta.
  apply fold_left_apply_writes. intros ws' r.
  apply fold_left_apply_writes. intros ws'' tr.
  apply accumulate_tree_writes.
Qed.

Lemma phase1_writes :
  phase1
  = apply_writes (replicate workspace_size vzero)
      (flat_map task_writes (range 0 task_count)).
Proof.
  unfold_phase1. apply fold_left_apply_writes, run_task_writes.
Qed.

Lemma length_phase1 : length phase1 = workspace_size.
Proof.
  by rewrite phase1_writes, length_apply_writes, length_replicate.
Qed.

(** *** Which writes reach a cell *)

Lemma vals_at_map {A} i (f : A → nat * V) l :
  vals_at i (map f l)
  = flat_map (λ x, if decide ((f x).1 = i) then [(f x).2] else []) l.
Proof.
  induction l as [|x l IH]; simpl; [done|].
  rewrite IH. by case_decide.
Qed.

Lemma vals_at_tree_writes r c g r' g' t :
  c < num_outputs → g < num_grove → g' < num_grove →
  vals_at (cell_index r c g) (tree_writes g' r' t)
  = if decide (r' = r ∧ g' = g) then leaf_contribution r c t else [].
Proof.
  intros Hc Hg Hg'. unfold_tree.
  destruct vector_output_p as [vo|].
  - rewrite vals_at_map. simpl. unfold range. rewrite Nat.sub_0_r.
    case_decide as Hrg.
    + destruct Hrg as [-> ->].
      rewrite (flat_map_seq_single _ 0 num_outputs c); [|lia|].
      * by rewrite decide_True.
      * intros c' Hne. case_decide as Heq; [|done].
        exfalso. simpl in Heq. unfold_grid_in Heq.
        assert (c' * num_grove = c * num_grove) as Hmul by lia.
        apply Nat.mul_cancel_r in Hmul; lia.
    + apply flat_map_seq_none. intros c' Hc'. case_decide as Heq; [|done].
      assert (c' < num_outputs) as Hlt by lia.
      destruct (cell_index_inj _ _ _ _ _ _ Hlt Hc Hg' Hg Heq) as (Hr & _ & Hgg).
      by destruct Hrg.
  - simpl. assert (t mod num_outputs < num_outputs) as Hmod
      by (apply Nat.mod_upper_bound; lia).
    destruct (decide (cell_index r' (t mod num_outputs) g' = cell_index r c g))
      as [Heq|Hne].
    + destruct (cell_index_inj _ _ _ _ _ _ Hmod Hc Hg' Hg Heq)
        as (-> & Hm & ->).
      by rewrite !decide_True.
    + destruct (decide (r' = r ∧ g' = g)) as [[-> ->]|]; [|done].
      destruct (decide (t mod num_outputs = c)) as [Hm|]; [|done].
      by rewrite Hm in Hne.
Qed.

Lemma owner_task_lt r g :
  0 < chunk_size → r < row_count → g < num_grove →
  owner_task r g < task_count.
Proof.
  intros Hcs Hr Hg. unfold_grid.
  pose proof (block_index_lt chunk_size row_count r Hcs Hr) as Hlt.
  fold num_chunk in Hlt. revert Hlt Hg.
  generalize num_chunk num_grove (r / chunk_size). intros C G k Hk Hg. nia.
Qed.

Lemma vals_at_task_writes r c g t :
  0 < chunk_size →
  r < row_count → c < num_outputs → g < num_grove → t < task_count →
  vals_at (cell_index r c g) (task_writes t)
  = if decide (t = owner_task r g)
    then flat_map (leaf_contribution r c) (grove_trees g)
    else [].
Proof.
  intros Hcs Hr Hc Hg Ht. unfold_task.
  destruct (task_index_bounds _ _ _ Ht) as [Hg' Hk'].
  pose proof (block_index_lt chunk_size row_count r Hcs Hr) as Hk.
  fold num_chunk in Hk.
  pose proof (task_index_split num_chunk t g (r / chunk_size) Hk) as Hsplit.
  rewrite vals_at_flat_map.
  erewrite flat_map_ext_in; last first.
  { intros r' _. rewrite vals_at_flat_map.
    apply flat_map_ext_in. intros tr _.
    by apply vals_at_tree_writes. }
  destruct (decide (t / num_chunk = g)) as [Hgg|Hgg]; last first.
  { rewrite decide_False by (unfold_grid; intros ->; apply Hgg, Hsplit; done).
    apply flat_map_nil. intros r' _. apply flat_map_nil. intros tr _.
    rewrite decide_False; [done|]. by intros [_ ?]. }
  rewrite Hgg.
  destruct (decide (t mod num_chunk = r / chunk_size)) as [Hkk|Hkk].
  - rewrite decide_True by (unfold_grid; by apply Hsplit).
    rewrite Hkk. unfold_grid. unfold range.
    rewrite (flat_map_seq_single _ _ _ r).
    + cbv beta. apply flat_map_ext_in. intros tr _. by rewrite decide_True.
    + assert (r ∈ range (r / chunk_size * chunk_size)
                ((r / chunk_size * chunk_size + chunk_size) `min` row_count))
        as Hin by (by apply elem_of_block).
      apply elem_of_range in Hin. lia.
    + intros r' Hne. apply flat_map_nil. intros tr _.
      rewrite decide_False; [done|]. by intros [? _].
  - rewrite decide_False by (unfold_grid; intros ->; apply Hkk, Hsplit; done).
    apply flat_map_nil. intros r' Hin. apply flat_map_nil. intros tr _.
    rewrite decide_False; [done|]. intros [-> _].
    unfold_grid_in Hin. apply elem_of_block in Hin; done.
Qed.

(** The content of a cell after the accumulation phase: the contributions
    of the trees of its grove, added in tree order. *)
Lemma load_phase1 r c g :
  0 < chunk_size →
  r < row_count → c < num_outputs → g < num_grove →
  load phase1 (cell_index r c g)
  = vsum (flat_map (leaf_contribution r c) (grove_trees g)).
Proof.
  intros Hcs Hr Hc Hg.
  pose proof (cell_index_lt r c g Hr Hc Hg) as Hlt.
  rewrite phase1_writes, load_apply_writes by (by rewrite length_replicate).
  unfold load at 1. rewrite lookup_replicate_2 by done. simpl.
  unfold vsum. f_equal.
  rewrite vals_at_flat_map.
  erewrite flat_map_ext_in; last first.
  { intros t Ht. apply elem_of_range in Ht.
    apply vals_at_task_writes; [done..|lia]. }
  unfold range. rewrite (flat_map_seq_single _ _ _ (owner_task r g)).
  - by rewrite decide_True.
  - pose proof (owner_task_lt r g Hcs Hr Hg). lia.
  - intros t Hne. by rewrite decide_False.
Qed.

(** ** The reduction phase *)

Lemma reduce_class_eq r ws c :
  reduce_class r ws c
  = <[r * num_outputs * num_grove + c * num_grove :=
        accumulate
          (take num_grove
             (drop (r * num_outputs * num_grove + c * num_grove) ws))
          vzero]> ws.
Proof. done. Qed.

Lemma length_reduce_classes r l : ∀ ws,
  length (fold_left (reduce_class r) l ws) = length ws.
Proof.
  induction l as [|c l IH]; intros ws; simpl; [done|].
  rewrite IH, reduce_class_eq. apply length_insert.
Qed.

(** Reducing the classes of a row only stores into the first grove's
    cells of that row. *)
Lemma reduce_classes_frame r k ws i :
  (∀ c, c < k → i ≠ r * num_outputs * num_grove + c * num_grove) →
  fold_left (reduce_class r) (seq 0 k) ws !! i = ws !! i.
Proof.
  induction k as [|k IH]; intros Hi; [done|].
  rewrite seq_S, fold_left_snoc, Nat.add_0_l, reduce_class_eq.
  rewrite list_lookup_insert_ne by (specialize (Hi k); lia).
  apply IH. intros c Hc. apply Hi. lia.
Qed.

Lemma reduce_classes_value r k ws c :
  0 < num_grove → c < k →
  r * num_outputs * num_grove + c * num_grove < length ws →
  fold_left (reduce_class r) (seq 0 k) ws
    !! (r * num_outputs * num_grove + c * num_grove)
  = Some (vsum (take num_grove
                  (drop (r * num_outputs * num_grove + c * num_grove) ws))).
Proof.
  intros HG. induction k as [|k IH]; intros Hc Hlen; [lia|].
  rewrite seq_S, fold_left_snoc, Nat.add_0_l, reduce_class_eq.
  destruct (decide (c = k)) as [->|Hne].
  - rewrite list_lookup_insert_eq by (by rewrite length_reduce_classes).
    f_equal. unfold vsum. f_equal. f_equal.
    apply list_eq. intros i. rewrite !lookup_drop.
    apply reduce_classes_frame. intros c' Hc'. nia.
  - rewrite list_lookup_insert_ne by nia.
    apply IH; [lia|done].
Qed.

Lemma rows_reduced_S k :
  rows_reduced (S k)
  = fold_left (reduce_class k) (range 0 num_outputs) (rows_reduced k).
Proof.
  unfold_phase2. unfold range. rewrite !Nat.sub_0_r.
  by rewrite seq_S, fold_left_snoc.
Qed.

Lemma length_rows_reduced k : length (rows_reduced k) = workspace_size.
Proof.
  induction k as [|k IH]; [apply length_phase1|].
  by rewrite rows_reduced_S, length_reduce_classes.
Qed.

(** The rows before [k] being reduced, the cells of the other rows are as
    the accumulation phase left them. *)
Lemma rows_reduced_frame k i :
  (∀ r c, r < k → c < num_outputs →
          i ≠ r * num_outputs * num_grove + c * num_grove) →
  rows_reduced k !! i = phase1 !! i.
Proof.
  induction k as [|k IH]; intros Hi; [done|].
  rewrite rows_reduced_S. unfold range. rewrite Nat.sub_0_r.
  rewrite reduce_classes_frame by (intros c Hc; apply Hi; lia).
  apply IH. intros r c Hr Hc. apply Hi; lia.
Qed.

Lemma rows_reduced_value r c :
  0 < num_grove → r < row_count → c < num_outputs →
  load (rows_reduced (S r)) (r * num_outputs * num_grove + c * num_grove)
  = vsum (map (λ g, load phase1 (cell_index r c g)) (seq 0 num_grove)).
Proof.
  intros HG Hr Hc.
  pose proof (cell_index_lt r c 0 Hr Hc HG) as Hlt. unfold_grid_in Hlt.
  assert (r * num_outputs * num_grove + c * num_grove + num_grove
          ≤ row_count * num_outputs * num_grove) as Hle.
  { assert (r * num_outputs + c + 1 ≤ row_count * num_outputs) by nia.
    nia. }
  rewrite rows_reduced_S. unfold range. rewrite Nat.sub_0_r.
  unfold load at 1.
  rewrite reduce_classes_value;
    [|done|done|rewrite length_rows_reduced; unfold_grid; lia].
  simpl. f_equal.
  replace (take num_grove
             (drop (r * num_outputs * num_grove + c * num_grove)
                (rows_reduced r)))
    with (take num_grove
            (drop (r * num_outputs * num_grove + c * num_grove) phase1)).
  - apply take_drop_loads. rewrite length_phase1. unfold_grid. lia.
  - f_equal. apply list_eq. intros i. rewrite !lookup_drop. symmetry.
    apply rows_reduced_frame. intros r' c' Hr' Hc'.
    assert ((r' * num_outputs + c') * num_grove
            < (r * num_outputs) * num_grove); [|lia].
    apply Nat.mul_lt_mono_pos_r; [done|nia].
Qed.

Lemma process_row_eq st r :
  process_row st r
  = {| workspace :=
         fold_left (reduce_class r) (range 0 num_outputs) (workspace st);
       output :=
         list_inserts (r * num_outputs)
           (postproc
              (drop (r * num_outputs * num_grove)
                 (fold_left (reduce_class r) (range 0 num_outputs)
                    (workspace st)))
              num_outputs num_grove)
           (output st);
       calls :=
         calls st
         ++ [ {| pc_val :=
                   drop (r * num_outputs * num_grove)
                     (fold_left (reduce_class r) (range 0 num_outputs)
                        (workspace st));
                 pc_output_count := num_outputs;
                 pc_out := r * num_outputs;
                 pc_fourth := num_grove |} ] |}.
Proof. done. Qed.

(** The state of the kernel after the first [k] rows. *)
Lemma process_rows k out :
  fold_left process_row (range 0 k)
    {| workspace := phase1; output := out; calls := [] |}
  = {| workspace := rows_reduced k;
       output :=
         fold_left
           (λ o r,
              list_inserts (r * num_outputs)
                (postproc (pc_val (row_call r)) num_outputs num_grove) o)
           (range 0 k) out;
       calls := map row_call (range 0 k) |}.
Proof.
  unfold range. rewrite Nat.sub_0_r.
  induction k as [|k IH]; [done|].
  rewrite seq_S, !fold_left_snoc, map_app, IH, Nat.add_0_l, process_row_eq.
  simpl. by rewrite <-rows_reduced_S.
Qed.

(** ** What the postprocessor is handed *)

Lemma calls_infer_kernel_cpu out :
  calls (infer_kernel_cpu out) = map row_call (range 0 row_count).
Proof. unfold_phase2. by rewrite process_rows. Qed.

Lemma output_infer_kernel_cpu out :
  output (infer_kernel_cpu out)
  = fold_left
      (λ o r,
         list_inserts (r * num_outputs)
           (postproc (pc_val (row_call r)) num_outputs num_grove) o)
      (range 0 row_count) out.
Proof. unfold_phase2. by rewrite process_rows. Qed.

Lemma lookup_calls out r :
  r < row_count → calls (infer_kernel_cpu out) !! r = Some (row_call r).
Proof.
  intros Hr. rewrite calls_infer_kernel_cpu, list_lookup_fmap.
  unfold range. by rewrite lookup_seq_lt by lia.
Qed.

Lemma num_grove_0 : 0 < grove_size → num_grove = 0 → num_tree = 0.
Proof. intros Hgs. unfold_counts. by apply ceildiv_0. Qed.

(** After the reduction, the value of class [c] of row [r] is the sum of
    the contributions of all trees, in tree order. *)
Lemma aggregate_row_call `{!ExactArith V} r c :
  0 < chunk_size → 0 < grove_size →
  r < row_count → c < num_outputs →
  aggregate (row_call r) c = forest_sum r c.
Proof.
  intros Hcs Hgs Hr Hc. unfold aggregate. unfold_forest_sum.
  replace (pc_fourth (row_call r)) with num_grove by done.
  replace (pc_val (row_call r))
    with (drop (r * num_outputs * num_grove) (rows_reduced (S r))) by done.
  rewrite load_drop.
  destruct (decide (num_grove = 0)) as [HG0|HG0].
  - rewrite (num_grove_0 Hgs HG0).
    pose proof (length_rows_reduced (S r)) as Hlen. unfold_grid_in Hlen.
    rewrite HG0, Nat.mul_0_r in Hlen.
    apply nil_length_inv in Hlen. by rewrite Hlen.
  - rewrite rows_reduced_value by (done || lia).
    erewrite map_ext_in; last first.
    { intros g Hg. apply list_elem_of_In, elem_of_seq in Hg.
      apply load_phase1; [done..|lia]. }
    rewrite vsum_flat_map, <-flat_map_flat_map.
    do 2 f_equal. unfold_grid. unfold range at 2.
    rewrite Nat.sub_0_r. unfold_counts. by apply blocks_cover_all.
Qed.

(** ** The writers of a cell *)

Lemma targets_tree_writes g r t i :
  0 < num_outputs →
  i ∈ targets (tree_writes g r t) →
  ∃ c, c < num_outputs ∧ i = cell_index r c g.
Proof.
  intros Hn. unfold_tree. destruct vector_output_p as [vo|].
  - unfold targets. rewrite map_map. simpl.
    intros (c & -> & Hc%elem_of_range)%list_elem_of_fmap.
    exists c. split; [lia|done].
  - simpl. intros ->%list_elem_of_singleton.
    exists (t mod num_outputs). split; [|done].
    apply Nat.mod_upper_bound. lia.
Qed.

Lemma targets_task_writes t i :
  0 < num_outputs →
  i ∈ targets (task_writes t) →
  ∃ r c, r ∈ chunk_rows (t mod num_chunk) ∧ c < num_outputs
         ∧ i = cell_index r c (t / num_chunk).
Proof.
  intros Hn. unfold_task.
  intros (r & Hr & (tr & _ & Hi)%elem_of_targets_flat_map)
    %elem_of_targets_flat_map.
  destruct (targets_tree_writes _ _ _ _ Hn Hi) as (c & Hc & ->).
  by exists r, c.
Qed.

(** A task that writes a cell is the task of the cell's grove and of the
    chunk of the cell's row. *)
Lemma writer_is_owner t r c g :
  0 < chunk_size → 0 < num_outputs →
  r < row_count → c < num_outputs → g < num_grove → t < task_count →
  cell_index r c g ∈ targets (task_writes t) →
  t = owner_task r g.
Proof.
  intros Hcs Hn Hr Hc Hg Ht Hin.
  destruct (targets_task_writes _ _ Hn Hin) as (r' & c' & Hr' & Hc' & Heq).
  destruct (task_index_bounds _ _ _ Ht) as [Hg' Hk'].
  destruct (cell_index_inj _ _ _ _ _ _ Hc Hc' Hg Hg' Heq) as (<- & <- & ->).
  unfold_grid_in Hr'. apply elem_of_block in Hr'; [|done..].
  unfold_grid. rewrite <-Hr', Nat.mul_comm. apply Nat.div_mod_eq.
Qed.

Lemma written_cell_is_valid t i :
  0 < num_outputs → t < task_count →
  i ∈ targets (task_writes t) →
  ∃ r c g, r < row_count ∧ c < num_outputs ∧ g < num_grove
           ∧ i = cell_index r c g.
Proof.
  intros Hn Ht Hin.
  destruct (targets_task_writes _ _ Hn Hin) as (r & c & Hr & Hc & ->).
  destruct (task_index_bounds _ _ _ Ht) as [Hg Hk].
  exists r, c, (t / num_chunk). split_and!; [|done..].
  unfold_grid_in Hr. apply elem_of_range in Hr. lia.
Qed.

Lemma disjoint_writes t1 t2 i :
  0 < chunk_size → 0 < num_outputs →
  t1 < task_count → t2 < task_count →
  i ∈ targets (task_writes t1) → i ∈ targets (task_writes t2) →
  t1 = t2.
Proof.
  intros Hcs Hn Ht1 Ht2 Hi1 Hi2.
  destruct (written_cell_is_valid _ _ Hn Ht1 Hi1)
    as (r & c & g & Hr & Hc & Hg & ->).
  rewrite (writer_is_owner t1 r c g), (writer_is_owner t2 r c g); done.
Qed.

Lemma grove_trees_nonempty g :
  0 < grove_size → g < num_grove → g * grove_size ∈ grove_trees g.
Proof.
  intros Hgs Hg. unfold_grid. apply elem_of_range.
  unfold_counts. unfold_counts_in Hg. apply lt_ceildiv in Hg; [|done]. lia.
Qed.

(** The owner writes a cell as soon as a tree of its grove contributes to
    the cell's class. *)
Lemma owner_writes r c g tr :
  0 < chunk_size →
  r < row_count → c < num_outputs → g < num_grove →
  tr ∈ grove_trees g → leaf_contribution r c tr ≠ [] →
  cell_index r c g ∈ targets (task_writes (owner_task r g)).
Proof.
  intros Hcs Hr Hc Hg Htr Hne. apply elem_of_targets_vals_at.
  rewrite vals_at_task_writes, decide_True
    by (done || by apply owner_task_lt).
  intros Hnil. apply Hne.
  apply list_elem_of_In in Htr.
  revert Htr Hnil. generalize (grove_trees g). intros l. clear.
  induction l as [|x l IH]; simpl; [done|].
  intros [->|Hin] Hnil%app_eq_nil; [tauto|]. apply IH; tauto.
Qed.

Lemma targets_task_writes_tree t i :
  i ∈ targets (task_writes t) →
  ∃ r tr, r ∈ chunk_rows (t mod num_chunk)
          ∧ tr ∈ grove_trees (t / num_chunk)
          ∧ i ∈ targets (tree_writes (t / num_chunk) r tr).
Proof.
  unfold_task.
  intros (r & Hr & (tr & Htr & Hi)%elem_of_targets_flat_map)
    %elem_of_targets_flat_map.
  by exists r, tr.
Qed.

Lemma lookup_calls_inv out r call :
  calls (infer_kernel_cpu out) !! r = Some call →
  r < row_count ∧ call = row_call r.
Proof.
  rewrite calls_infer_kernel_cpu, list_lookup_fmap. unfold range.
  rewrite Nat.sub_0_r. intros Hlook.
  destruct (seq 0 row_count !! r) as [r'|] eqn:Hseq; [|done].
  apply lookup_seq in Hseq as [-> ?]. simpl in Hlook. split; [done|].
  congruence.
Qed.

(** ** The order of the tasks

    The tasks of the accumulation phase run in parallel.  Since no two
    of them write the same cell, the workspace they leave is the same in
    whatever order they run; every index they write lies inside the
    workspace. *)

(** X9: the accumulation phase never writes outside the workspace: every
    index a task adds to is the cell of a row of the input, of a class
    and of a grove, and lies below [row_count * num_outputs * num_grove]. *)
Lemma writes_in_bounds t i :
  0 < num_outputs → t < task_count →
  i ∈ targets (task_writes t) → i < workspace_size.
Proof.
  intros Hn Ht Hin.
  destruct (written_cell_is_valid _ _ Hn Ht Hin)
    as (r & c & g & Hr & Hc & Hg & ->).
  by apply cell_index_lt.
Qed.

Lemma schedule_independent order :
  0 < chunk_size → 0 < num_outputs →
  order ≡ₚ range 0 task_count →
  fold_left run_task order (replicate workspace_size vzero) = phase1.
Proof.
  intros Hcs Hn Hperm. rewrite phase1_writes.
  rewrite (fold_left_apply_writes _ task_writes) by apply run_task_writes.
  apply apply_writes_ext. intros j. rewrite !vals_at_flat_map.
  symmetry. apply flat_map_perm_single; [done|].
  intros t1 t2 Ht1%elem_of_range Ht2%elem_of_range
    Hne1%elem_of_targets_vals_at Hne2%elem_of_targets_vals_at.
  apply (disjoint_writes t1 t2 j); (done || lia).
Qed.

(** ** The statements of the specification *)

(** C1: for a forest of scalar leaves with one output, the value the
    postprocessor is handed for a row after the reduction over the groves
    is the sum of the leaf values that the trees of the forest yield for
    that row. *)
Theorem scalar_aggregate_is_sum `{!ExactArith V} out r :
  0 < chunk_size → 0 < grove_size →
  vector_output_p = None → num_outputs = 1 →
  r < row_count →
  ∃ call,
    calls (infer_kernel_cpu out) !! r = Some call
    ∧ load (pc_val call) 0
      = vsum (map (λ t, tree_output_value t r) (range 0 num_tree)).
Proof.
  intros Hcs Hgs Hvo Hn Hr. exists (row_call r).
  split; [by apply lookup_calls|].
  assert (0 < num_outputs) as Hc by lia.
  pose proof (aggregate_row_call r 0 Hcs Hgs Hr Hc) as Hagg.
  unfold aggregate in Hagg. rewrite Nat.mul_0_l in Hagg. rewrite Hagg.
  unfold_forest_sum. f_equal. unfold_tree. rewrite Hvo, Hn.
  rewrite <-flat_map_singleton. apply flat_map_ext_in. intros t _.
  by rewrite Nat.mod_1_r, decide_True.
Qed.

(** C2: for a forest of vector leaves, the value the postprocessor is
    handed for class [c] of a row is the sum over all trees of
    [vector_output_p[leaf_index * num_outputs + c]], where [leaf_index] is
    what evaluating the tree on the row returns. *)
Theorem vector_aggregate_is_sum `{!ExactArith V} out vo r c :
  0 < chunk_size → 0 < grove_size →
  vector_output_p = Some vo →
  r < row_count → c < num_outputs →
  ∃ call,
    calls (infer_kernel_cpu out) !! r = Some call
    ∧ aggregate call c
      = vsum (map (λ t, load vo (tree_output_index t r * num_outputs + c))
                (range 0 num_tree)).
Proof.
  intros Hcs Hgs Hvo Hr Hc. exists (row_call r).
  split; [by apply lookup_calls|].
  rewrite aggregate_row_call by done.
  unfold_forest_sum. f_equal. unfold_tree. rewrite Hvo.
  apply flat_map_singleton.
Qed.

(** C7: with scalar leaves, what tree [t] yields for row [r] is added
    into cell [(r, t mod num_outputs, grove)], and into no other: after
    the accumulation phase a cell holds the sum of the leaf values of the
    trees of its grove whose index is its class modulo [num_outputs]. *)
Theorem scalar_leaves_round_robin :
  vector_output_p = None →
  (∀ g r ws t,
     accumulate_tree g r ws t
     = add_at ws (cell_index r (t mod num_outputs) g)
         (tree_output_value t r))
  ∧ (∀ r c g,
       0 < chunk_size →
       r < row_count → c < num_outputs → g < num_grove →
       load phase1 (cell_index r c g)
       = vsum (map (λ t, tree_output_value t r)
                 (filter (λ t, t mod num_outputs = c) (grove_trees g)))).
Proof.
  intros Hvo. split.
  - intros g r ws t. unfold_tree. by rewrite Hvo.
  - intros r c g Hcs Hr Hc Hg. rewrite load_phase1 by done. f_equal.
    rewrite <-flat_map_decide_filter. apply flat_map_ext_in. intros t _.
    unfold_tree. by rewrite Hvo.
Qed.

(** C5, amended: no two distinct tasks write the same workspace cell.
    With vector leaves every (row, class, grove) cell is written by
    exactly one task; with scalar leaves a cell is written, by the task of
    its grove and of its row's chunk, when its grove holds a tree whose
    index is the cell's class modulo [num_outputs], and by no task
    otherwise. *)
Theorem at_most_one_writer :
  0 < chunk_size → 0 < grove_size → 0 < num_outputs →
  (∀ t1 t2 i,
     t1 < task_count → t2 < task_count →
     i ∈ targets (task_writes t1) → i ∈ targets (task_writes t2) →
     t1 = t2)
  ∧ (is_Some vector_output_p →
     each_cell_written_by_exactly_one_task ev has_categorical_nodes forest
       input row_count col_count num_outputs chunk_size grove_size
       vector_output_p categorical_data)
  ∧ (vector_output_p = None →
     ∀ r c g t,
       r < row_count → c < num_outputs → g < num_grove → t < task_count →
       cell_index r c g ∈ targets (task_writes t)
       ↔ t = owner_task r g
         ∧ ∃ tr, tr ∈ grove_trees g ∧ tr mod num_outputs = c).
Proof.
  intros Hcs Hgs Hn. split_and!.
  - intros t1 t2 i. by apply disjoint_writes.
  - intros [vo Hvo] r c g Hr Hc Hg. exists (owner_task r g). split.
    + split; [by apply owner_task_lt|].
      apply (owner_writes r c g (g * grove_size)); [done..| |].
      * by apply grove_trees_nonempty.
      * unfold_tree. by rewrite Hvo.
    + intros t' Ht' Hin. by apply (writer_is_owner t' r c g).
  - intros Hvo r c g t Hr Hc Hg Ht. split.
    + intros Hin. pose proof (writer_is_owner t r c g Hcs Hn Hr Hc Hg Ht Hin)
        as Hown.
      split; [done|].
      destruct (targets_task_writes_tree _ _ Hin) as (r' & tr & _ & Htr & Hi).
      assert (t / num_chunk = g) as Hgg.
      { destruct (targets_task_writes _ _ Hn Hin) as (r2 & c2 & _ & Hc2 & Heq).
        destruct (task_index_bounds _ _ _ Ht) as [Hg' _].
        by destruct (cell_index_inj _ _ _ _ _ _ Hc Hc2 Hg Hg' Heq)
          as (_ & _ & ->). }
      rewrite Hgg in Htr, Hi. exists tr. split; [done|].
      revert Hi. unfold_tree. rewrite Hvo. simpl.
      intros Heq%list_elem_of_singleton.
      assert (tr mod num_outputs < num_outputs) as Hmod
        by (apply Nat.mod_upper_bound; lia).
      by destruct (cell_index_inj _ _ _ _ _ _ Hc Hmod Hg Hg Heq)
        as (_ & -> & _).
    + intros [-> (tr & Htr & Hmod)].
      apply (owner_writes r c g tr); [done..|].
      unfold_tree. by rewrite Hvo, decide_True.
Qed.

(** C6: the postprocessor is invoked once per row, [row_count] times in
    all, each time on [num_outputs] values; when each invocation stores
    [num_outputs] results, the first [row_count * num_outputs] elements of
    the output buffer are the results of the invocations, row after row,
    whatever the buffer held before. *)
Theorem postprocessor_once_per_row out :
  (∀ val, length (postproc val num_outputs num_grove) = num_outputs) →
  row_count * num_outputs ≤ length out →
  length (calls (infer_kernel_cpu out)) = row_count
  ∧ (∀ r call,
       calls (infer_kernel_cpu out) !! r = Some call →
       pc_output_count call = num_outputs ∧ pc_out call = r * num_outputs)
  ∧ (∀ out', calls (infer_kernel_cpu out') = calls (infer_kernel_cpu out))
  ∧ output (infer_kernel_cpu out)
    = flat_map
        (λ call,
           postproc (pc_val call) (pc_output_count call) (pc_fourth call))
        (calls (infer_kernel_cpu out))
      ++ drop (row_count * num_outputs) out.
Proof.
  intros Hpp Hout. split_and!.
  - rewrite calls_infer_kernel_cpu, length_map. unfold range.
    rewrite length_seq. lia.
  - intros r call [_ ->]%lookup_calls_inv. done.
  - intros out'. by rewrite !calls_infer_kernel_cpu.
  - rewrite output_infer_kernel_cpu, calls_infer_kernel_cpu.
    unfold range. rewrite Nat.sub_0_r.
    rewrite fold_left_list_inserts by (done || intros; apply Hpp).
    by rewrite flat_map_map.
Qed.

(** ** Independence of the partition *)

(** With a postprocessor that works on the values it is handed, the
    output is described without any reference to groves and chunks. *)
Lemma output_reads_at_stride `{!ExactArith V} transform out :
  reads_at_stride postproc transform →
  0 < chunk_size → 0 < grove_size →
  output (infer_kernel_cpu out)
  = fold_left
      (λ o r,
         list_inserts (r * num_outputs)
           (transform (map (forest_sum r) (range 0 num_outputs))) o)
      (range 0 row_count) out.
Proof.
  intros Hpp Hcs Hgs. rewrite output_infer_kernel_cpu.
  apply fold_left_ext_in. intros o r Hr%elem_of_range.
  f_equal. rewrite Hpp. f_equal.
  apply map_ext_in. intros c Hc%list_elem_of_In%elem_of_range.
  apply (aggregate_row_call r c); (done || lia).
Qed.

End KernelFacts.

Lemma identity_postproc_reads_at_stride {V} `{Arith V} :
  reads_at_stride (identity_postproc (V:=V)) id.
Proof. done. Qed.

Lemma ceildiv_le_1 a b : 0 < b → a ≤ b → ceildiv a b ≤ 1.
Proof.
  intros Hb Hab. destruct (decide (ceildiv a b ≤ 1)) as [|Hgt]; [done|].
  assert (1 < ceildiv a b) as Hlt by lia.
  apply lt_ceildiv in Hlt; [lia|done].
Qed.

Lemma ceildiv_1 a : ceildiv a 1 = a.
Proof. unfold ceildiv. rewrite Nat.div_1_r. lia. Qed.

Lemma ceildiv_self a : 0 < a → ceildiv a a = 1.
Proof.
  intros Ha. pose proof (ceildiv_le_1 a a Ha (le_n a)).
  pose proof (lt_ceildiv a a 0 Ha). lia.
Qed.

(** C3: the output of [infer_kernel_cpu] does not depend on [chunk_size]
    and [grove_size].  For any two choices of positive sizes -- among
    them the one task of [grove_size >= tree_count] and
    [chunk_size >= row_count] against any smaller sizes -- the values
    handed to the postprocessor for every class of every row are equal
    and, the postprocessor working on the values it is handed, so are the
    output buffers. *)
Theorem partition_invariance {V} `{ExactArith V} {root_t cat_t : Type}
    (postproc : list V → nat → nat → list V) (transform : list V → list V)
    (ev : evaluator V root_t cat_t) (has_categorical_nodes : bool)
    (forest : forest_t root_t) (input : list V)
    (row_count col_count num_outputs : nat)
    (vector_output_p : option (list V)) (categorical_data : option cat_t)
    (chunk_size grove_size chunk_size' grove_size' : nat) (out : list V) :
  0 < chunk_size → 0 < grove_size → 0 < chunk_size' → 0 < grove_size' →
  (tree_count forest ≤ grove_size → row_count ≤ chunk_size →
   task_count forest row_count chunk_size grove_size ≤ 1)
  ∧ (∀ r c,
       r < row_count → c < num_outputs →
       aggregate
         (row_call ev has_categorical_nodes forest input row_count
            col_count num_outputs chunk_size grove_size vector_output_p
            categorical_data r) c
       = aggregate
           (row_call ev has_categorical_nodes forest input row_count
              col_count num_outputs chunk_size' grove_size' vector_output_p
              categorical_data r) c)
  ∧ (reads_at_stride postproc transform →
     output
       (infer_kernel_cpu postproc ev has_categorical_nodes forest input
          row_count col_count num_outputs chunk_size grove_size
          vector_output_p categorical_data out)
     = output
         (infer_kernel_cpu postproc ev has_categorical_nodes forest input
            row_count col_count num_outputs chunk_size' grove_size'
            vector_output_p categorical_data out)).
Proof.
  intros Hcs Hgs Hcs' Hgs'. split_and!.
  - intros HT HR. unfold task_count, num_grove, num_chunk, num_tree.
    pose proof (ceildiv_le_1 _ _ Hgs HT).
    pose proof (ceildiv_le_1 _ _ Hcs HR). nia.
  - intros r c Hr Hc. by rewrite !aggregate_row_call.
  - intros Hpp.
    by rewrite !(output_reads_at_stride postproc _ _ _ _ _ _ _ _ _ _ _ transform).
Qed.

(** C10: every invocation of the postprocessor gets
    [num_grove = ceildiv(tree_count, grove_size)] as its fourth argument,
    and the value of class [c] lies [c * num_grove] elements after [val];
    so what the postprocessor is handed changes with [grove_size]: two
    grove sizes that give different numbers of groves give different
    fourth arguments, and a forest of two trees or more has such sizes. *)
Theorem fourth_argument_is_num_grove {V} `{ExactArith V}
    {root_t cat_t : Type}
    (postproc : list V → nat → nat → list V)
    (ev : evaluator V root_t cat_t) (has_categorical_nodes : bool)
    (forest : forest_t root_t) (input : list V)
    (row_count col_count num_outputs chunk_size grove_size : nat)
    (vector_output_p : option (list V)) (categorical_data : option cat_t)
    (out : list V) (r : nat) (call : postproc_call V) :
  0 < chunk_size → 0 < grove_size →
  calls
    (infer_kernel_cpu postproc ev has_categorical_nodes forest input
       row_count col_count num_outputs chunk_size grove_size
       vector_output_p categorical_data out) !! r = Some call →
  pc_fourth call = ceildiv (tree_count forest) grove_size
  ∧ (∀ c,
       c < num_outputs →
       load (pc_val call) (c * ceildiv (tree_count forest) grove_size)
       = forest_sum ev has_categorical_nodes forest input col_count
           num_outputs vector_output_p categorical_data r c)
  ∧ (∀ grove_size' call',
       calls
         (infer_kernel_cpu postproc ev has_categorical_nodes forest input
            row_count col_count num_outputs chunk_size grove_size'
            vector_output_p categorical_data out) !! r = Some call' →
       ceildiv (tree_count forest) grove_size'
       ≠ ceildiv (tree_count forest) grove_size →
       pc_fourth call' ≠ pc_fourth call)
  ∧ (2 ≤ tree_count forest →
     ∃ grove_size',
       0 < grove_size'
       ∧ ceildiv (tree_count forest) grove_size'
         ≠ ceildiv (tree_count forest) grove_size).
Proof.
  intros Hcs Hgs [Hr ->]%lookup_calls_inv. split_and!.
  - done.
  - intros c Hc.
    by rewrite <-(aggregate_row_call ev has_categorical_nodes forest input
                    row_count col_count num_outputs chunk_size grove_size
                    vector_output_p categorical_data r c).
  - by intros grove_size' call' [_ ->]%lookup_calls_inv.
  - intros HT.
    destruct (decide (ceildiv (tree_count forest) grove_size
                      = tree_count forest)) as [Heq|Hne].
    + exists (tree_count forest). split; [lia|].
      rewrite ceildiv_self by lia. lia.
    + exists 1. split; [lia|]. by rewrite ceildiv_1.
Qed.

(** ** The dispatch layer *)

(** C4: whatever the three run-time conditions, [infer] makes exactly one
    call of [inference::infer]: of the specialization with vector leaves
    when [vector_output] is not null, with non-local categories when
    [categorical_data] is not null, and with categorical nodes when
    [has_categorical_nodes] holds or [categorical_data] is not null; the
    pointers and the other arguments are handed on as they are. *)
Theorem infer_selects_one_specialization {VO CD A : Type} (args : A)
    (has_categorical_nodes : bool) (vector_output : option VO)
    (categorical_data : option CD) :
  ∃ call,
    infer args has_categorical_nodes vector_output categorical_data = [call]
    ∧ specialization_of call
      = {| spec_has_categorical_nodes :=
             has_categorical_nodes || bool_decide (is_Some categorical_data);
           spec_has_vector_leaves := bool_decide (is_Some vector_output);
           spec_has_nonlocal_categories :=
             bool_decide (is_Some categorical_data) |}
    ∧ fc_vector_output call = vector_output
    ∧ fc_categorical_data call = categorical_data
    ∧ fc_args call = args.
Proof.
  destruct vector_output as [vo|], categorical_data as [cd|],
    has_categorical_nodes; simpl; eexists; split_and!; reflexivity.
Qed.

(** C9: when [categorical_data] is not null, [infer] does not look at
    [has_categorical_nodes]: with and without vector output, the one call
    it makes is of the specialization with categorical nodes. *)
Theorem categorical_data_overrides_flag {VO CD A : Type} (args : A)
    (has_categorical_nodes : bool) (vector_output : option VO) (cd : CD) :
  infer args has_categorical_nodes vector_output (Some cd)
  = [ {| fc_has_categorical_nodes := true;
         fc_vector_output := vector_output;
         fc_categorical_data := Some cd;
         fc_args := args |} ].
Proof. by destruct vector_output. Qed.

Lemma infer_makes_one_call {VO CD A : Type} (args : A)
    (has_categorical_nodes : bool) (vector_output : option VO)
    (categorical_data : option CD) :
  ∃ call,
    infer args has_categorical_nodes vector_output categorical_data = [call].
Proof.
  destruct vector_output, categorical_data, has_categorical_nodes;
    simpl; by eexists.
Qed.

(** C8: a call that raises an error -- of configuration, of device or of
    allocation -- raises it before any row is processed: the
    postprocessor has not been invoked, there is no workspace, and the
    output buffer holds what it held before the call. *)
Theorem failed_call_leaves_output_untouched {V} `{Arith V}
    {root_t cat_t : Type}
    (env : environment) (hardware_constructive_interference_size : nat)
    (ev : evaluator V root_t cat_t)
    (args : infer_args V root_t) (has_categorical_nodes : bool)
    (vector_output : option (list V)) (categorical_data : option cat_t)
    (out : list V) (e : fil_error) :
  raised
    (infer_cpu env hardware_constructive_interference_size ev args
       has_categorical_nodes vector_output categorical_data out) = Some e →
  final
    (infer_cpu env hardware_constructive_interference_size ev args
       has_categorical_nodes vector_output categorical_data out)
  = {| workspace := []; output := out; calls := [] |}.
Proof.
  unfold infer_cpu.
  destruct (infer_makes_one_call args has_categorical_nodes
              vector_output categorical_data) as [call ->].
  simpl. unfold inference_infer, infer_kernel_cpu_alloc.
  destruct (configuration_consistent env); [|done].
  destruct (device_usable env); [|done].
  simpl. by destruct (can_allocate env _).
Qed.

(** ** The scenarios of the specification, and instances *)

(** Scenario A. *)
Example scenario_A :
  output
    (infer_kernel_cpu identity_postproc leaf_evaluator false
       scenario_A_forest [] 1 0 1 64 64 None None [Q2Qc 0])
  = [ Q2Qc (1 # 2) ].
Proof. reflexivity. Qed.

(** Scenario B. *)
Example scenario_B :
  output
    (infer_kernel_cpu identity_postproc leaf_evaluator false
       scenario_B_forest [] 1 0 3 64 64 (Some scenario_B_vector_output) None
       [Q2Qc 0; Q2Qc 0; Q2Qc 0])
  = [ Q2Qc (1 # 10); Q2Qc (1 # 5); Q2Qc (7 # 10) ].
Proof. reflexivity. Qed.

Lemma scalar_aggregate_is_sum_witness :
  ∃ call,
    calls
      (infer_kernel_cpu identity_postproc leaf_evaluator false
         scenario_A_forest [] 1 0 1 64 64 None None [Q2Qc 0]) !! 0
    = Some call
    ∧ load (pc_val call) 0
      = vsum
          (map
             (λ t,
                tree_output_value leaf_evaluator false scenario_A_forest []
                  0 None t 0)
             (range 0 (num_tree scenario_A_forest))).
Proof.
  apply (scalar_aggregate_is_sum identity_postproc leaf_evaluator false
           scenario_A_forest [] 1 0 1 64 64 None None);
    [lia|lia|reflexivity|reflexivity|lia].
Defined.

Lemma vector_aggregate_is_sum_witness :
  ∃ call,
    calls
      (infer_kernel_cpu identity_postproc leaf_evaluator false
         scenario_B_forest [] 1 0 3 64 64 (Some scenario_B_vector_output)
         None [Q2Qc 0; Q2Qc 0; Q2Qc 0]) !! 0
    = Some call
    ∧ aggregate call 2
      = vsum
          (map
             (λ t,
                load scenario_B_vector_output
                  (tree_output_index leaf_evaluator false scenario_B_forest
                     [] 0 None t 0 * 3 + 2))
             (range 0 (num_tree scenario_B_forest))).
Proof.
  apply (vector_aggregate_is_sum identity_postproc leaf_evaluator false
           scenario_B_forest [] 1 0 3 64 64
           (Some scenario_B_vector_output) None);
    [lia|lia|reflexivity|lia|lia].
Defined.

(** C5, as the specification words it, fails: with scalar leaves, four
    trees, three outputs and groves of two trees, the first grove holds
    trees 0 and 1, so that no task writes the cell of class 2 of that
    grove. *)
Lemma exactly_one_writer_fails :
  ¬ each_cell_written_by_exactly_one_task leaf_evaluator false four_trees
      [] 1 0 3 1 2 None None.
Proof.
  intros Hall.
  destruct (Hall 0 2 0) as (t & [Ht Hin] & _); [lia|lia|vm_compute; lia|].
  vm_compute in Ht. apply list_elem_of_In in Hin.
  assert (t = 0 ∨ t = 1) as [-> | ->] by lia; vm_compute in Hin; lia.
Qed.

Lemma at_most_one_writer_witness :
  (∀ t1 t2 i,
     t1 < task_count four_trees 3 2 2 → t2 < task_count four_trees 3 2 2 →
     i ∈ targets
           (task_writes leaf_evaluator false four_trees [] 3 0 3 2 2 None
              None t1) →
     i ∈ targets
           (task_writes leaf_evaluator false four_trees [] 3 0 3 2 2 None
              None t2) →
     t1 = t2)
  ∧ (is_Some (@None (list Z)) →
     each_cell_written_by_exactly_one_task leaf_evaluator false four_trees
       [] 3 0 3 2 2 None None)
  ∧ (@None (list Z) = None →
     ∀ r c g t,
       r < 3 → c < 3 → g < num_grove four_trees 2 →
       t < task_count four_trees 3 2 2 →
       cell_index four_trees 3 2 r c g
         ∈ targets
             (task_writes leaf_evaluator false four_trees [] 3 0 3 2 2 None
                None t)
       ↔ t = owner_task 3 2 r g
         ∧ ∃ tr, tr ∈ grove_trees four_trees 2 g ∧ tr mod 3 = c).
Proof.
  apply (at_most_one_writer leaf_evaluator false four_trees [] 3 0 3 2 2
           None None); lia.
Defined.

Lemma scalar_leaves_round_robin_witness :
  (∀ g r ws t,
     accumulate_tree leaf_evaluator false four_trees [] 0 3 2 None None g r
       ws t
     = add_at ws (cell_index four_trees 3 2 r (t mod 3) g)
         (tree_output_value leaf_evaluator false four_trees [] 0 None t r))
  ∧ (∀ r c g,
       0 < 2 → r < 3 → c < 3 → g < num_grove four_trees 2 →
       load
         (phase1 leaf_evaluator false four_trees [] 3 0 3 2 2 None None)
         (cell_index four_trees 3 2 r c g)
       = vsum
           (map
              (λ t,
                 tree_output_value leaf_evaluator false four_trees [] 0 None
                   t r)
              (filter (λ t, t mod 3 = c) (grove_trees four_trees 2 g)))).
Proof.
  apply (scalar_leaves_round_robin leaf_evaluator false four_trees [] 3 0 3
           2 2 None None).
  reflexivity.
Defined.

Lemma postprocessor_once_per_row_witness :
  length
    (calls
       (infer_kernel_cpu identity_postproc leaf_evaluator false four_trees
          [] 2 0 3 1 2 None None [7; 7; 7; 7; 7; 7; 7; 7]%Z)) = 2
  ∧ (∀ r call,
       calls
         (infer_kernel_cpu identity_postproc leaf_evaluator false
            four_trees [] 2 0 3 1 2 None None [7; 7; 7; 7; 7; 7; 7; 7]%Z)
         !! r = Some call →
       pc_output_count call = 3 ∧ pc_out call = r * 3)
  ∧ (∀ out',
       calls
         (infer_kernel_cpu identity_postproc leaf_evaluator false
            four_trees [] 2 0 3 1 2 None None out')
       = calls
           (infer_kernel_cpu identity_postproc leaf_evaluator false
              four_trees [] 2 0 3 1 2 None None
              [7; 7; 7; 7; 7; 7; 7; 7]%Z))
  ∧ output
      (infer_kernel_cpu identity_postproc leaf_evaluator false four_trees
         [] 2 0 3 1 2 None None [7; 7; 7; 7; 7; 7; 7; 7]%Z)
    = flat_map
        (λ call,
           identity_postproc (pc_val call) (pc_output_count call)
             (pc_fourth call))
        (calls
           (infer_kernel_cpu identity_postproc leaf_evaluator false
              four_trees [] 2 0 3 1 2 None None
              [7; 7; 7; 7; 7; 7; 7; 7]%Z))
      ++ drop (2 * 3) [7; 7; 7; 7; 7; 7; 7; 7]%Z.
Proof.
  apply (postprocessor_once_per_row identity_postproc leaf_evaluator false
           four_trees [] 2 0 3 1 2 None None).
  - intros val. unfold identity_postproc, range.
    by rewrite length_map, length_seq.
  - simpl. lia.
Defined.

(** Scenario C on four trees and three rows: one task against one task
    per tree and row. *)
Lemma partition_invariance_witness :
  output
    (infer_kernel_cpu identity_postproc leaf_evaluator false four_trees []
       3 0 3 3 4 None None [7; 7; 7; 7; 7; 7; 7; 7; 7; 7]%Z)
  = output
      (infer_kernel_cpu identity_postproc leaf_evaluator false four_trees
         [] 3 0 3 1 1 None None [7; 7; 7; 7; 7; 7; 7; 7; 7; 7]%Z).
Proof.
  destruct (partition_invariance identity_postproc id leaf_evaluator false
              four_trees [] 3 0 3 None None 3 4 1 1
              [7; 7; 7; 7; 7; 7; 7; 7; 7; 7]%Z)
    as (_ & _ & Hout); [lia..|].
  apply Hout. intros val output_count fourth. reflexivity.
Defined.

Example scenario_C_single_task :
  output
    (infer_kernel_cpu identity_postproc leaf_evaluator false four_trees []
       3 0 3 3 4 None None [7; 7; 7; 7; 7; 7; 7; 7; 7; 7]%Z)
  = [50; 20; 30; 50; 20; 30; 50; 20; 30; 7]%Z.
Proof. reflexivity. Qed.

Lemma fourth_argument_is_num_grove_witness :
  pc_fourth
    (row_call leaf_evaluator false four_trees [] 2 0 3 1 2 None None 0)
  = ceildiv (tree_count four_trees) 2
  ∧ (∀ c,
       c < 3 →
       load
         (pc_val
            (row_call leaf_evaluator false four_trees [] 2 0 3 1 2 None None
               0))
         (c * ceildiv (tree_count four_trees) 2)
       = forest_sum leaf_evaluator false four_trees [] 0 3 None None 0 c)
  ∧ (∀ grove_size' call',
       calls
         (infer_kernel_cpu identity_postproc leaf_evaluator false
            four_trees [] 2 0 3 1 grove_size' None None [7; 7; 7; 7; 7; 7]%Z)
         !! 0 = Some call' →
       ceildiv (tree_count four_trees) grove_size'
       ≠ ceildiv (tree_count four_trees) 2 →
       pc_fourth call'
       ≠ pc_fourth
           (row_call leaf_evaluator false four_trees [] 2 0 3 1 2 None None
              0))
  ∧ (2 ≤ tree_count four_trees →
     ∃ grove_size',
       0 < grove_size'
       ∧ ceildiv (tree_count four_trees) grove_size'
         ≠ ceildiv (tree_count four_trees) 2).
Proof.
  apply (fourth_argument_is_num_grove identity_postproc leaf_evaluator false
           four_trees [] 2 0 3 1 2 None None [7; 7; 7; 7; 7; 7]%Z 0);
    [lia|lia|reflexivity].
Defined.

Lemma failed_call_leaves_output_untouched_witness :
  final
    (infer_cpu (cat_t:=unit) no_memory 64 leaf_evaluator four_trees_args
       false None None [7; 7; 7; 7; 7; 7]%Z)
  = {| workspace := []; output := [7; 7; 7; 7; 7; 7]%Z; calls := [] |}.
Proof.
  apply (failed_call_leaves_output_untouched no_memory 64 leaf_evaluator
           four_trees_args false None None [7; 7; 7; 7; 7; 7]%Z
           AllocationError).
  reflexivity.
Defined.

Example call_succeeds_with_memory :
  infer_cpu (cat_t:=unit)
    {| configuration_consistent := true;
       device_usable := true;
       can_allocate := λ _, true |}
    64 leaf_evaluator four_trees_args false None None [7; 7; 7; 7; 7; 7; 7]%Z
  = {| raised := None;
       final :=
         {| workspace := [50; 20; 30; 50; 20; 30]%Z;
            output := [50; 20; 30; 50; 20; 30; 7]%Z;
            calls :=
              [ {| pc_val := [50; 20; 30; 50; 20; 30]%Z;
                   pc_output_count := 3;
                   pc_out := 0;
                   pc_fourth := 1 |};
                {| pc_val := [50; 20; 30]%Z;
                   pc_output_count := 3;
                   pc_out := 3;
                   pc_fourth := 1 |} ] |} |}.
Proof. reflexivity. Qed.

(** * Further properties of the kernel and of the dispatch *)

(** ** Arrays that agree element by element *)

Lemma list_eq_loads {V} `{Arith V} (a b : list V) :
  length a = length b →
  (∀ j, j < length a → load a j = load b j) →
  a = b.
Proof.
  intros Hlen Hload. apply list_eq. intros j.
  destruct (decide (j < length a)) as [Hj|Hj].
  - specialize (Hload j Hj). unfold load in Hload.
    destruct (lookup_lt_is_Some_2 a j Hj) as [x Hx].
    destruct (lookup_lt_is_Some_2 b j) as [y Hy]; [lia|].
    rewrite Hx, Hy in Hload |- *. simpl in Hload. by rewrite Hload.
  - rewrite !lookup_ge_None_2; [done|lia..].
Qed.

(** Every element of the workspace is the cell of a row, a class and a
    grove. *)
Lemma cell_index_surj {root_t : Type} (forest : forest_t root_t)
    (row_count num_outputs grove_size j : nat) :
  j < workspace_size forest row_count num_outputs grove_size →
  ∃ r c g,
    r < row_count ∧ c < num_outputs ∧ g < num_grove forest grove_size
    ∧ j = cell_index forest num_outputs grove_size r c g.
Proof.
  unfold workspace_size, cell_index.
  generalize (num_grove forest grove_size). intros G Hj.
  assert (0 < G) as HG by (destruct G; lia).
  assert (0 < num_outputs) as Hn by (destruct num_outputs; lia).
  exists (j / G / num_outputs), ((j / G) mod num_outputs), (j mod G).
  assert (j / G < row_count * num_outputs) as Hq
    by (apply Nat.Div0.div_lt_upper_bound; lia).
  split_and!.
  - apply Nat.Div0.div_lt_upper_bound. lia.
  - apply Nat.mod_upper_bound. lia.
  - apply Nat.mod_upper_bound. lia.
  - pose proof (Nat.div_mod_eq j G) as Hj1.
    pose proof (Nat.div_mod_eq (j / G) num_outputs) as Hj2.
    rewrite Hj1 at 1. rewrite Hj2 at 1.
    generalize (j / G / num_outputs) ((j / G) mod num_outputs) (j mod G).
    intros r c g. lia.
Qed.

(** After the accumulation phase the workspace is the same for every
    positive chunk size. *)
Lemma phase1_chunk_size {V} `{Arith V} {root_t cat_t : Type}
    (ev : evaluator V root_t cat_t) (has_categorical_nodes : bool)
    (forest : forest_t root_t) (input : list V)
    (row_count col_count num_outputs grove_size : nat)
    (vector_output_p : option (list V)) (categorical_data : option cat_t)
    (chunk_size chunk_size' : nat) :
  0 < chunk_size → 0 < chunk_size' →
  phase1 ev has_categorical_nodes forest input row_count col_count
    num_outputs chunk_size grove_size vector_output_p categorical_data
  = phase1 ev has_categorical_nodes forest input row_count col_count
      num_outputs chunk_size' grove_size vector_output_p categorical_data.
Proof.
  intros Hcs Hcs'. apply list_eq_loads.
  - by rewrite !length_phase1.
  - intros j Hj. rewrite length_phase1 in Hj.
    destruct (cell_index_surj _ _ _ _ _ Hj) as (r & c & g & Hr & Hc & Hg & ->).
    by rewrite !load_phase1.
Qed.

(** X1: the chunk size has no influence on what [infer_kernel_cpu] does:
    for any two positive chunk sizes the workspace, the invocations of
    the postprocessor and the output buffer are the same, whatever the
    arithmetic and the postprocessor are -- each cell receives the same
    values in the same order. *)
Theorem chunk_size_irrelevant {V} `{Arith V} {root_t cat_t : Type}
    (postproc : list V → nat → nat → list V)
    (ev : evaluator V root_t cat_t) (has_categorical_nodes : bool)
    (forest : forest_t root_t) (input : list V)
    (row_count col_count num_outputs grove_size : nat)
    (vector_output_p : option (list V)) (categorical_data : option cat_t)
    (chunk_size chunk_size' : nat) (out : list V) :
  0 < chunk_size → 0 < chunk_size' →
  infer_kernel_cpu postproc ev has_categorical_nodes forest input row_count
    col_count num_outputs chunk_size grove_size vector_output_p
    categorical_data out
  = infer_kernel_cpu postproc ev has_categorical_nodes forest input
      row_count col_count num_outputs chunk_size' grove_size
      vector_output_p categorical_data out.
Proof.
  intros Hcs Hcs'. unfold infer_kernel_cpu.
  by rewrite (phase1_chunk_size _ _ _ _ _ _ _ _ _ _ chunk_size chunk_size').
Qed.

(** ** Which trees are evaluated on which rows *)

Lemma elem_of_flat_map {A B} (f : A → list B) l y :
  y ∈ flat_map f l ↔ ∃ x, x ∈ l ∧ y ∈ f x.
Proof.
  rewrite list_elem_of_In, in_flat_map. split.
  - intros (x & Hx & Hy). exists x. by rewrite !list_elem_of_In.
  - intros (x & Hx & Hy). exists x. by rewrite <-!list_elem_of_In.
Qed.

Lemma NoDup_flat_map {A B} (f : A → list B) l :
  NoDup l →
  (∀ x, x ∈ l → NoDup (f x)) →
  (∀ x y z, x ∈ l → y ∈ l → z ∈ f x → z ∈ f y → x = y) →
  NoDup (flat_map f l).
Proof.
  induction 1 as [|x l Hx Hl IH]; intros Hf Hdisj; simpl.
  - constructor.
  - apply NoDup_app. split_and!.
    + apply Hf. by left.
    + intros z Hz (y & Hy & Hzy)%elem_of_flat_map.
      assert (x = y) as ->
        by (apply (Hdisj x y z); [by left|by right|done|done]).
      done.
    + apply IH.
      * intros y Hy. apply Hf. by right.
      * intros y1 y2 z Hy1 Hy2. apply Hdisj; by right.
Qed.

(** The pairs of a list of rows and a list of trees, row after row. *)
Lemma elem_of_pairs (rows trees : list nat) r t :
  (r, t) ∈ flat_map (λ r, map (λ t, (r, t)) trees) rows
  ↔ r ∈ rows ∧ t ∈ trees.
Proof.
  rewrite elem_of_flat_map. split.
  - intros (r' & Hr' & (t' & Heq & Ht')%list_elem_of_fmap). by simplify_eq.
  - intros [Hr Ht]. exists r. split; [done|].
    apply list_elem_of_fmap. by exists t.
Qed.

Lemma NoDup_pairs (rows trees : list nat) :
  NoDup rows → NoDup trees →
  NoDup (flat_map (λ r, map (λ t, (r, t)) trees) rows).
Proof.
  intros Hrows Htrees. apply NoDup_flat_map; [done| |].
  - intros r _. apply NoDup_fmap_2_strong; [|done].
    intros t t' _ _ Heq. by simplify_eq.
  - intros r r' [r0 t0] _ _ (t & Heq & _)%list_elem_of_fmap
      (t' & Heq' & _)%list_elem_of_fmap.
    by simplify_eq.
Qed.

Lemma length_pairs (rows trees : list nat) :
  length (flat_map (λ r, map (λ t, (r, t)) trees) rows)
  = length rows * length trees.
Proof.
  induction rows as [|r rows IH]; simpl; [done|].
  by rewrite length_app, length_map, IH.
Qed.

Section Evaluations.
Context {root_t : Type}.
Variable forest : forest_t root_t.
Variables row_count chunk_size grove_size : nat.

Lemma elem_of_task_evaluations task r t :
  (r, t) ∈ task_evaluations forest row_count chunk_size grove_size task
  ↔ r ∈ chunk_rows row_count chunk_size
          (task mod num_chunk row_count chunk_size)
    ∧ t ∈ grove_trees forest grove_size
            (task / num_chunk row_count chunk_size).
Proof. apply elem_of_pairs. Qed.

(** A task only evaluates trees of the forest on rows of the input. *)
Lemma task_evaluations_in_range task r t :
  (r, t) ∈ task_evaluations forest row_count chunk_size grove_size task →
  r < row_count ∧ t < tree_count forest.
Proof.
  intros [Hr Ht]%elem_of_task_evaluations.
  unfold chunk_rows in Hr. unfold grove_trees, num_tree in Ht.
  apply elem_of_range in Hr. apply elem_of_range in Ht. lia.
Qed.

(** The task that evaluates a tree on a row. *)
Lemma task_evaluations_owner task r t :
  0 < chunk_size → 0 < grove_size →
  r < row_count → t < tree_count forest →
  task < task_count forest row_count chunk_size grove_size →
  (r, t) ∈ task_evaluations forest row_count chunk_size grove_size task
  ↔ task = t / grove_size * num_chunk row_count chunk_size + r / chunk_size.
Proof.
  intros Hcs Hgs Hr Ht Htask.
  rewrite elem_of_task_evaluations. unfold chunk_rows, grove_trees, num_tree.
  rewrite !elem_of_block by done.
  unfold task_count in Htask.
  pose proof (block_index_lt chunk_size row_count r Hcs Hr) as Hk.
  rewrite <-(task_index_split _ task (t / grove_size) (r / chunk_size))
    by done.
  tauto.
Qed.

Lemma NoDup_task_evaluations task :
  NoDup (task_evaluations forest row_count chunk_size grove_size task).
Proof. apply NoDup_pairs; apply NoDup_seq. Qed.

(** X2: over all tasks, [infer_kernel_cpu] evaluates every tree of the
    forest on every row of the input exactly once, and nothing else: its
    calls of [evaluate_tree] are a rearrangement of the pairs of a row
    and a tree, [row_count * tree_count] in number. *)
Theorem every_tree_on_every_row_once :
  0 < chunk_size → 0 < grove_size →
  evaluations forest row_count chunk_size grove_size
  ≡ₚ flat_map (λ r, map (λ t, (r, t)) (range 0 (tree_count forest)))
       (range 0 row_count)
  ∧ length (evaluations forest row_count chunk_size grove_size)
    = row_count * tree_count forest.
Proof.
  intros Hcs Hgs.
  assert (evaluations forest row_count chunk_size grove_size
          ≡ₚ flat_map
               (λ r, map (λ t, (r, t)) (range 0 (tree_count forest)))
               (range 0 row_count)) as Hperm.
  { apply NoDup_Permutation.
    - apply NoDup_flat_map; [apply NoDup_seq| |].
      + intros task _. apply NoDup_task_evaluations.
      + intros t1 t2 [r t] Ht1%elem_of_range Ht2%elem_of_range Hin1 Hin2.
        destruct (task_evaluations_in_range _ _ _ Hin1) as [Hr Ht].
        apply task_evaluations_owner in Hin1; [|done || lia..].
        apply task_evaluations_owner in Hin2; [|done || lia..].
        congruence.
    - apply NoDup_pairs; apply NoDup_seq.
    - intros [r t]. unfold evaluations.
      rewrite elem_of_flat_map, elem_of_pairs, !elem_of_range. split.
      + intros (task & _ & Hin).
        apply task_evaluations_in_range in Hin. lia.
      + intros [Hr Ht].
        exists (t / grove_size * num_chunk row_count chunk_size
                + r / chunk_size).
        assert (t / grove_size * num_chunk row_count chunk_size
                + r / chunk_size
                < task_count forest row_count chunk_size grove_size)
          as Hlt.
        { pose proof (block_index_lt chunk_size row_count r Hcs) as Hk.
          pose proof (block_index_lt grove_size (tree_count forest) t Hgs)
            as Hg.
          unfold task_count, num_grove, num_chunk, num_tree.
          specialize (Hk ltac:(lia)). specialize (Hg ltac:(lia)).
          revert Hk Hg.
          generalize (ceildiv row_count chunk_size)
            (ceildiv (tree_count forest) grove_size)
            (r / chunk_size) (t / grove_size).
          intros C G k g Hk Hg. nia. }
        split; [apply elem_of_range; lia|].
        apply task_evaluations_owner; (done || lia). }
  split; [done|].
  rewrite Hperm, length_pairs. unfold range. rewrite !length_seq. lia.
Qed.

(** The writes of a task are those of its evaluations. *)
Lemma task_writes_evaluations {V} `{Arith V} {cat_t : Type}
    (ev : evaluator V root_t cat_t) (has_categorical_nodes : bool)
    (input : list V) (col_count num_outputs : nat)
    (vector_output_p : option (list V)) (categorical_data : option cat_t)
    task :
  task_writes ev has_categorical_nodes forest input row_count col_count
    num_outputs chunk_size grove_size vector_output_p categorical_data task
  = flat_map
      (λ p,
         tree_writes ev has_categorical_nodes forest input col_count
           num_outputs grove_size vector_output_p categorical_data
           (task / num_chunk row_count chunk_size) p.1 p.2)
      (task_evaluations forest row_count chunk_size grove_size task).
Proof.
  unfold task_writes, task_evaluations.
  rewrite flat_map_flat_map. apply flat_map_ext_in. intros r _.
  by rewrite flat_map_map.
Qed.

End Evaluations.

(** ** The size of a task *)

Section TaskSize.
Context {root_t : Type}.
Variable forest : forest_t root_t.
Variables row_count chunk_size grove_size : nat.

Lemma length_block size total b :
  0 < size → b < ceildiv total size →
  1 ≤ length (range (b * size) ((b * size + size) `min` total)) ≤ size.
Proof.
  intros Hs Hb%lt_ceildiv; [|done]. unfold range. rewrite length_seq. lia.
Qed.

(** X3: no task is idle and none is oversized: every task of the grid
    has at least one row and one tree, at most [chunk_size] rows and at
    most [grove_size] trees, and evaluates each of its trees on each of
    its rows. *)
Theorem task_size task :
  0 < chunk_size → 0 < grove_size →
  task < task_count forest row_count chunk_size grove_size →
  1 ≤ length
        (chunk_rows row_count chunk_size
           (task mod num_chunk row_count chunk_size)) ≤ chunk_size
  ∧ 1 ≤ length
          (grove_trees forest grove_size
             (task / num_chunk row_count chunk_size)) ≤ grove_size
  ∧ length (task_evaluations forest row_count chunk_size grove_size task)
    = length
        (chunk_rows row_count chunk_size
           (task mod num_chunk row_count chunk_size))
      * length
          (grove_trees forest grove_size
             (task / num_chunk row_count chunk_size)).
Proof.
  intros Hcs Hgs Htask.
  destruct (task_index_bounds _ _ _ Htask) as [Hg Hk].
  split; [|split].
  - by apply length_block.
  - by apply length_block.
  - apply length_pairs.
Qed.

End TaskSize.

(** ** The accesses of the reduction phase *)

Section ReductionBounds.
Context {root_t : Type}.
Variable forest : forest_t root_t.
Variables row_count num_outputs grove_size : nat.

(** What [reduce_class] reads and where it stores, in terms of
    [reduction_loads] and [reduction_store]. *)
Lemma reduce_class_accesses {V} `{Arith V} (ws : list V) r c :
  reduction_store forest num_outputs grove_size r c
  + num_grove forest grove_size ≤ length ws →
  reduce_class forest num_outputs grove_size r ws c
  = <[reduction_store forest num_outputs grove_size r c :=
        accumulate
          (map (load ws) (reduction_loads forest num_outputs grove_size r c))
          vzero]> ws.
Proof.
  intros Hlen. unfold reduce_class, reduction_loads, range.
  fold (reduction_store forest num_outputs grove_size r c).
  rewrite take_drop_loads by done. do 2 f_equal.
  replace (reduction_store forest num_outputs grove_size r c
           + num_grove forest grove_size
           - reduction_store forest num_outputs grove_size r c)
    with (num_grove forest grove_size) by lia.
  generalize (reduction_store forest num_outputs grove_size r c).
  generalize (num_grove forest grove_size). intros G off.
  assert (∀ k, map (λ i, load ws (off + i)) (seq k G)
               = map (load ws) (seq (off + k) G)) as Hshift.
  { induction G as [|G IH]; intros k; simpl; [done|].
    f_equal. rewrite <-Nat.add_succ_r. apply IH. }
  by rewrite Hshift, Nat.add_0_r.
Qed.

(** X4: the reduction phase stays inside the workspace exactly when the
    forest has a tree.  With at least one tree, the element it stores to
    and the elements it sums lie inside the workspace, for every class of
    every row; for a forest without trees the workspace has no element,
    nothing is summed, and the store at index 0 lies outside of it. *)
Theorem reduction_in_bounds r c :
  0 < grove_size → r < row_count → c < num_outputs →
  (0 < tree_count forest →
   reduction_store forest num_outputs grove_size r c
   < workspace_size forest row_count num_outputs grove_size
   ∧ ∀ i,
       i ∈ reduction_loads forest num_outputs grove_size r c →
       i < workspace_size forest row_count num_outputs grove_size)
  ∧ (tree_count forest = 0 →
     workspace_size forest row_count num_outputs grove_size = 0
     ∧ reduction_loads forest num_outputs grove_size r c = []
     ∧ reduction_store forest num_outputs grove_size r c = 0).
Proof.
  intros Hgs Hr Hc. unfold reduction_loads, reduction_store, workspace_size.
  split.
  - intros HT.
    assert (0 < num_grove forest grove_size) as HG.
    { unfold num_grove, num_tree. apply lt_ceildiv; [done|lia]. }
    revert HG. generalize (num_grove forest grove_size). intros G HG.
    assert (r * num_outputs * G + c * G + G ≤ row_count * num_outputs * G)
      as Hle.
    { assert (r * num_outputs + c + 1 ≤ row_count * num_outputs) by nia.
      nia. }
    split; [lia|]. intros i Hi%elem_of_range. lia.
  - intros HT.
    assert (num_grove forest grove_size = 0) as ->.
    { unfold num_grove, num_tree. rewrite HT. by apply ceildiv_0. }
    split_and!; [lia| |lia].
    unfold range. by rewrite !Nat.mul_0_r, Nat.sub_diag.
Qed.

End ReductionBounds.

(** ** No rows *)

(** X5: on an input without rows [infer_kernel_cpu] allocates an empty
    workspace, runs no task, never invokes the postprocessor and leaves
    the output buffer as it was. *)
Theorem no_rows_no_work {V} `{Arith V} {root_t cat_t : Type}
    (postproc : list V → nat → nat → list V)
    (ev : evaluator V root_t cat_t) (has_categorical_nodes : bool)
    (forest : forest_t root_t) (input : list V)
    (col_count num_outputs chunk_size grove_size : nat)
    (vector_output_p : option (list V)) (categorical_data : option cat_t)
    (out : list V) :
  0 < chunk_size → 0 < grove_size →
  task_count forest 0 chunk_size grove_size = 0
  ∧ infer_kernel_cpu postproc ev has_categorical_nodes forest input 0
      col_count num_outputs chunk_size grove_size vector_output_p
      categorical_data out
    = {| workspace := []; output := out; calls := [] |}.
Proof.
  intros Hcs Hgs. split.
  - unfold task_count, num_chunk.
    assert (ceildiv 0 chunk_size = 0) as -> by (by apply ceildiv_0). lia.
  - unfold infer_kernel_cpu. simpl. f_equal.
    apply nil_length_inv. by rewrite length_phase1.
Qed.

(** ** Grove sizes that hold the whole forest *)

Lemma num_grove_whole_forest {root_t : Type} (forest : forest_t root_t)
    (grove_size grove_size' : nat) :
  0 < grove_size → 0 < grove_size' →
  tree_count forest ≤ grove_size → tree_count forest ≤ grove_size' →
  num_grove forest grove_size = num_grove forest grove_size'
  ∧ num_grove forest grove_size ≤ 1.
Proof.
  intros Hgs Hgs' HT HT'. unfold num_grove, num_tree.
  pose proof (ceildiv_le_1 _ _ Hgs HT).
  pose proof (ceildiv_le_1 _ _ Hgs' HT').
  pose proof (ceildiv_0 (tree_count forest) grove_size Hgs).
  pose proof (ceildiv_0 (tree_count forest) grove_size' Hgs'). lia.
Qed.

(** X6: all grove sizes that hold the whole forest, and all chunk sizes,
    make [infer_kernel_cpu] do the same: the workspace, the invocations
    of the postprocessor and the output buffer are the same whatever the
    arithmetic and the postprocessor are, since every tree is added to
    the one grove in the order of the forest. *)
Theorem whole_forest_groves_agree {V} `{Arith V} {root_t cat_t : Type}
    (postproc : list V → nat → nat → list V)
    (ev : evaluator V root_t cat_t) (has_categorical_nodes : bool)
    (forest : forest_t root_t) (input : list V)
    (row_count col_count num_outputs : nat)
    (vector_output_p : option (list V)) (categorical_data : option cat_t)
    (chunk_size grove_size chunk_size' grove_size' : nat) (out : list V) :
  0 < chunk_size → 0 < chunk_size' →
  0 < grove_size → 0 < grove_size' →
  tree_count forest ≤ grove_size → tree_count forest ≤ grove_size' →
  infer_kernel_cpu postproc ev has_categorical_nodes forest input row_count
    col_count num_outputs chunk_size grove_size vector_output_p
    categorical_data out
  = infer_kernel_cpu postproc ev has_categorical_nodes forest input
      row_count col_count num_outputs chunk_size' grove_size'
      vector_output_p categorical_data out.
Proof.
  intros Hcs Hcs' Hgs Hgs' HT HT'.
  destruct (num_grove_whole_forest forest grove_size grove_size')
    as [HG HG1]; [done..|].
  unfold infer_kernel_cpu.
  rewrite (phase1_chunk_size _ _ _ _ _ _ _ _ _ _ chunk_size chunk_size')
    by done.
  assert (phase1 ev has_categorical_nodes forest input row_count col_count
            num_outputs chunk_size' grove_size vector_output_p
            categorical_data
          = phase1 ev has_categorical_nodes forest input row_count col_count
              num_outputs chunk_size' grove_size' vector_output_p
              categorical_data) as Hphase1.
  { apply list_eq_loads.
    - rewrite !length_phase1. unfold workspace_size. by rewrite HG.
    - intros j Hj. rewrite length_phase1 in Hj.
      destruct (cell_index_surj _ _ _ _ _ Hj)
        as (r & c & g & Hr & Hc & Hg & ->).
      assert (g = 0) as -> by lia.
      rewrite load_phase1 by done.
      replace (cell_index forest num_outputs grove_size r c 0)
        with (cell_index forest num_outputs grove_size' r c 0)
        by (unfold cell_index; by rewrite HG).
      rewrite load_phase1 by (done || lia).
      do 2 f_equal. unfold grove_trees, num_tree. f_equal. lia. }
  rewrite Hphase1. f_equal.
  unfold process_row, reduce_class. by rewrite HG.
Qed.

(** ** The specializations the dispatch reaches *)

(** X7: of the eight specializations of [inference::infer], [infer]
    reaches exactly the six in which non-local categorical storage comes
    with categorical nodes; the two without categorical nodes but with
    non-local storage are never called. *)
Theorem reachable_specializations {VO CD A : Type}
    `{Inhabited VO} `{Inhabited CD} (args : A) (s : specialization) :
  (∃ has_categorical_nodes (vector_output : option VO)
     (categorical_data : option CD) call,
     call ∈ infer args has_categorical_nodes vector_output categorical_data
     ∧ specialization_of call = s)
  ↔ (spec_has_nonlocal_categories s = true →
     spec_has_categorical_nodes s = true).
Proof.
  split.
  - intros (hcn & vo & cd & call & Hin & <-).
    destruct vo, cd, hcn; simpl in Hin;
      apply list_elem_of_singleton in Hin; by subst.
  - destruct s as [hcn vl nl]. simpl. intros Hs.
    exists hcn, (if vl then Some inhabitant else None),
      (if nl then Some inhabitant else None).
    destruct hcn, vl, nl; simpl in *;
      try (by discriminate Hs);
      eexists; (split; [apply list_elem_of_singleton; reflexivity|done]).
Qed.

(** ** The rows of the reduction phase in any order *)

(** Stores to disjoint parts of a buffer commute. *)
Lemma list_inserts_commute {A} (l k k' : list A) i j :
  i + length k ≤ j ∨ j + length k' ≤ i →
  list_inserts i k (list_inserts j k' l)
  = list_inserts j k' (list_inserts i k l).
Proof.
  intros Hdisj. apply list_eq. intros p.
  destruct (decide (i ≤ p < i + length k ∧ p < length l)) as [[Hp Hl]|Hp].
  - rewrite list_lookup_inserts by (by rewrite ?length_inserts).
    assert (p < j ∨ j + length k' ≤ p) as [?|?] by lia.
    + rewrite list_lookup_inserts_lt by done.
      by rewrite list_lookup_inserts.
    + rewrite list_lookup_inserts_ge by done.
      by rewrite list_lookup_inserts.
  - destruct (decide (p < length l)) as [Hl|Hl]; last first.
    { rewrite !lookup_ge_None_2; [done|rewrite !length_inserts; lia..]. }
    assert (p < i ∨ i + length k ≤ p) as Hout by lia.
    assert (list_inserts i k (list_inserts j k' l) !! p
            = list_inserts j k' l !! p) as ->.
    { destruct Hout; [by apply list_lookup_inserts_lt
                     |by apply list_lookup_inserts_ge]. }
    destruct (decide (j ≤ p < j + length k')) as [Hj|Hj].
    + rewrite !list_lookup_inserts; (done || by rewrite ?length_inserts).
    + assert (p < j ∨ j + length k' ≤ p) as [?|?] by lia.
      * rewrite !list_lookup_inserts_lt by done.
        destruct Hout; [by rewrite list_lookup_inserts_lt
                       |by rewrite list_lookup_inserts_ge].
      * rewrite !list_lookup_inserts_ge by done.
        destruct Hout; [by rewrite list_lookup_inserts_lt
                       |by rewrite list_lookup_inserts_ge].
Qed.

(** Storing [n] values per row may be done row by row in any order. *)
Lemma fold_left_list_inserts_perm {A} (vals : nat → list A) n order order' :
  order ≡ₚ order' →
  (∀ r, length (vals r) = n) →
  ∀ out,
    fold_left (λ o r, list_inserts (r * n) (vals r) o) order out
    = fold_left (λ o r, list_inserts (r * n) (vals r) o) order' out.
Proof.
  intros Hperm Hlen.
  induction Hperm as [|x l l' Hperm IH|x y l|l l' l'' Hperm IH Hperm' IH'];
    intros out; simpl.
  - done.
  - apply IH.
  - f_equal. destruct (decide (x = y)) as [->|Hne]; [done|].
    apply list_inserts_commute. rewrite !Hlen. nia.
  - by rewrite IH, IH'.
Qed.

Section RowOrder.
Context {V : Type} `{Arith V} {root_t : Type}.
Variable postproc : list V → nat → nat → list V.
Variable forest : forest_t root_t.
Variables row_count num_outputs grove_size : nat.

Local Abbreviation G := (num_grove forest grove_size).
Local Abbreviation rrow := (reduce_row forest num_outputs grove_size).
Local Abbreviation prow :=
  (process_row postproc forest num_outputs grove_size).

Lemma length_reduce_row ws r : length (rrow ws r) = length ws.
Proof. apply length_reduce_classes. Qed.

Lemma length_reduce_rows order : ∀ ws,
  length (fold_left rrow order ws) = length ws.
Proof.
  induction order as [|r order IH]; intros ws; simpl; [done|].
  by rewrite IH, length_reduce_row.
Qed.

Lemma reduce_row_frame ws r j :
  (∀ c, c < num_outputs → j ≠ r * num_outputs * G + c * G) →
  rrow ws r !! j = ws !! j.
Proof.
  intros Hj. unfold reduce_row, range. rewrite Nat.sub_0_r.
  by apply reduce_classes_frame.
Qed.

Lemma reduce_row_value ws r c :
  0 < G → c < num_outputs →
  r * num_outputs * G + c * G < length ws →
  rrow ws r !! (r * num_outputs * G + c * G)
  = Some (vsum (take G (drop (r * num_outputs * G + c * G) ws))).
Proof.
  intros HG Hc Hlen. unfold reduce_row, range. rewrite Nat.sub_0_r.
  by apply reduce_classes_value.
Qed.

(** The first cell of a class of a row is no cell of another row. *)
Lemma first_cell_inj r c i r' c' :
  0 < G → c < num_outputs → c' < num_outputs → i < G →
  r * num_outputs * G + c * G + i = r' * num_outputs * G + c' * G →
  r = r' ∧ c = c' ∧ i = 0.
Proof.
  intros HG Hc Hc' Hi Heq.
  apply (cell_index_inj forest num_outputs grove_size r c i r' c' 0);
    [done..|].
  unfold cell_index. lia.
Qed.

Lemma reduce_rows_frame order : ∀ ws j,
  (∀ r c, r ∈ order → c < num_outputs →
          j ≠ r * num_outputs * G + c * G) →
  fold_left rrow order ws !! j = ws !! j.
Proof.
  induction order as [|r order IH]; intros ws j Hj; simpl; [done|].
  rewrite IH by (intros r' c Hr' Hc; apply Hj; [by right|done]).
  apply reduce_row_frame. intros c Hc. apply Hj; [by left|done].
Qed.

(** Reducing a row leaves the cells of the other rows as they are. *)
Lemma reduce_row_other_row ws r0 r c :
  0 < G → r ≠ r0 → c < num_outputs →
  take G (drop (r * num_outputs * G + c * G) (rrow ws r0))
  = take G (drop (r * num_outputs * G + c * G) ws).
Proof.
  intros HG Hne Hc. apply list_eq. intros i.
  destruct (decide (i < G)) as [Hi|Hi].
  - rewrite !lookup_take_lt, !lookup_drop by done.
    apply reduce_row_frame. intros c' Hc' Heq.
    by destruct (first_cell_inj _ _ _ _ _ HG Hc Hc' Hi Heq) as (? & _).
  - by rewrite !lookup_take_ge by lia.
Qed.

(** Whatever the order, a row that is reduced once ends up with the sums
    of its cells as they were before. *)
Lemma reduce_rows_value order : ∀ ws r c,
  0 < G → NoDup order → r ∈ order → c < num_outputs →
  r * num_outputs * G + c * G < length ws →
  fold_left rrow order ws !! (r * num_outputs * G + c * G)
  = Some (vsum (take G (drop (r * num_outputs * G + c * G) ws))).
Proof.
  induction order as [|r0 order IH]; intros ws r c HG Hnodup Hin Hc Hlen.
  { by apply elem_of_nil in Hin. }
  apply NoDup_cons in Hnodup as [Hr0 Hnodup]. simpl.
  destruct (decide (r = r0)) as [->|Hne].
  - rewrite reduce_rows_frame; [by apply reduce_row_value|].
    intros r' c' Hr' Hc' Heq.
    destruct (first_cell_inj r0 c 0 r' c') as (-> & _); (done || lia).
  - apply elem_of_cons in Hin as [?|Hin]; [done|].
    rewrite IH by (done || by rewrite length_reduce_row).
    by rewrite reduce_row_other_row.
Qed.

(** The state after the rows of [order], from any state. *)
Lemma process_rows_in_order order : ∀ st,
  fold_left prow order st
  = {| workspace := fold_left rrow order (workspace st);
       output :=
         fold_left
           (λ o call,
              list_inserts (pc_out call)
                (postproc (pc_val call) (pc_output_count call)
                   (pc_fourth call)) o)
           (calls_in_order forest num_outputs grove_size order
              (workspace st))
           (output st);
       calls :=
         calls st
         ++ calls_in_order forest num_outputs grove_size order
              (workspace st) |}.
Proof.
  induction order as [|r order IH]; intros st; simpl.
  - rewrite app_nil_r. by destruct st.
  - rewrite IH. simpl. by rewrite <-app_assoc.
Qed.

(** What the invocation of a row is handed, in any order: the sums of
    the cells of the row as the workspace [ws0] has them, provided no row
    of the order has been reduced before. *)
Lemma calls_in_order_aggregates ws0 order : ∀ ws,
  0 < G → NoDup order →
  (∀ r, r ∈ order → r < row_count) →
  length ws = workspace_size forest row_count num_outputs grove_size →
  (∀ r c, r ∈ order → c < num_outputs →
          take G (drop (r * num_outputs * G + c * G) ws)
          = take G (drop (r * num_outputs * G + c * G) ws0)) →
  Forall2
    (λ r call,
       r < row_count
       ∧ pc_output_count call = num_outputs
       ∧ pc_out call = r * num_outputs
       ∧ pc_fourth call = G
       ∧ ∀ c, c < num_outputs →
              aggregate call c
              = vsum (take G (drop (r * num_outputs * G + c * G) ws0)))
    order
    (calls_in_order forest num_outputs grove_size order ws).
Proof.
  induction order as [|r0 order IH]; intros ws HG Hnodup Hrows Hlen Hagree;
    simpl; [constructor|].
  apply NoDup_cons in Hnodup as [Hr0 Hnodup].
  constructor.
  - split_and!; [apply Hrows; by left|done..|].
    intros c Hc. unfold aggregate. simpl.
    rewrite load_drop. unfold load.
    rewrite reduce_row_value; [|done|done|].
    + simpl. f_equal. apply Hagree; [by left|done].
    + rewrite Hlen.
      pose proof (cell_index_lt forest row_count num_outputs grove_size
                    r0 c 0) as Hlt.
      unfold cell_index in Hlt. rewrite Nat.add_0_r in Hlt.
      apply Hlt; [apply Hrows; by left|done|done].
  - apply IH; [done|done| | |].
    + intros r Hr. apply Hrows. by right.
    + by rewrite length_reduce_row.
    + intros r c Hr Hc. rewrite reduce_row_other_row; [|done| |done].
      * apply Hagree; [by right|done].
      * intros ->. done.
Qed.

(** The workspace after the rows of an order does not depend on the
    order. *)
Lemma reduce_rows_perm order order' ws :
  0 < G → order ≡ₚ order' → NoDup order →
  length ws = workspace_size forest row_count num_outputs grove_size →
  fold_left rrow order ws = fold_left rrow order' ws.
Proof.
  intros HG Hperm Hnodup Hlen. apply list_eq. intros j.
  destruct (decide (j < length ws)) as [Hj|Hj]; last first.
  { rewrite !lookup_ge_None_2; [done|rewrite length_reduce_rows; lia..]. }
  rewrite Hlen in Hj.
  destruct (cell_index_surj _ _ _ _ _ Hj) as (r & c & g & Hr & Hc & Hg & ->).
  unfold cell_index. fold G.
  destruct (decide (r ∈ order ∧ g = 0)) as [[Hin ->]|Hnot].
  - rewrite Nat.add_0_r.
    assert (r * num_outputs * G + c * G < length ws) as Hlt.
    { rewrite Hlen.
      pose proof (cell_index_lt forest row_count num_outputs grove_size
                    r c 0 Hr Hc HG) as Hlt.
      unfold cell_index in Hlt. by rewrite Nat.add_0_r in Hlt. }
    assert (NoDup order') as Hnodup' by (by rewrite <-Hperm).
    assert (r ∈ order') as Hin' by (by rewrite <-Hperm).
    by rewrite !reduce_rows_value.
  - assert (∀ r' c', r' ∈ order → c' < num_outputs →
                     r * num_outputs * G + c * G + g
                     ≠ r' * num_outputs * G + c' * G) as Hframe.
    { intros r' c' Hr' Hc' Heq.
      destruct (first_cell_inj _ _ _ _ _ HG Hc Hc' Hg Heq) as (-> & _ & ->).
      by apply Hnot. }
    rewrite !reduce_rows_frame; [done| |done].
    intros r' c' Hr'. apply Hframe. by rewrite Hperm.
Qed.

(** With a postprocessor that works on the values it is handed, what the
    invocations store is determined by the sums they are handed. *)
Lemma outputs_of_calls transform ws0 order cs :
  reads_at_stride postproc transform →
  Forall2
    (λ r call,
       r < row_count
       ∧ pc_output_count call = num_outputs
       ∧ pc_out call = r * num_outputs
       ∧ pc_fourth call = G
       ∧ ∀ c, c < num_outputs →
              aggregate call c
              = vsum (take G (drop (r * num_outputs * G + c * G) ws0)))
    order cs →
  ∀ out,
    fold_left
      (λ o call,
         list_inserts (pc_out call)
           (postproc (pc_val call) (pc_output_count call) (pc_fourth call))
           o)
      cs out
    = fold_left
        (λ o r,
           list_inserts (r * num_outputs)
             (transform
                (map
                   (λ c,
                      vsum
                        (take G (drop (r * num_outputs * G + c * G) ws0)))
                   (range 0 num_outputs)))
             o)
        order out.
Proof.
  intros Hpp. induction 1 as [|r call order cs Hcall _ IH]; intros out;
    simpl; [done|].
  destruct Hcall as (_ & Hcount & Hout & Hfourth & Hagg).
  rewrite IH. f_equal. rewrite Hout, Hpp, Hcount. do 2 f_equal.
  apply map_ext_in. intros c Hc%list_elem_of_In%elem_of_range.
  rewrite <-Hagg by lia. done.
Qed.

End RowOrder.

Lemma aggregate_row_call_cells {V} `{Arith V} {root_t cat_t : Type}
    (ev : evaluator V root_t cat_t) (has_categorical_nodes : bool)
    (forest : forest_t root_t) (input : list V)
    (row_count col_count num_outputs chunk_size grove_size : nat)
    (vector_output_p : option (list V)) (categorical_data : option cat_t)
    (r c : nat) :
  0 < num_grove forest grove_size → r < row_count → c < num_outputs →
  aggregate
    (row_call ev has_categorical_nodes forest input row_count col_count
       num_outputs chunk_size grove_size vector_output_p categorical_data r)
    c
  = vsum
      (take (num_grove forest grove_size)
         (drop
            (r * num_outputs * num_grove forest grove_size
             + c * num_grove forest grove_size)
            (phase1 ev has_categorical_nodes forest input row_count
               col_count num_outputs chunk_size grove_size vector_output_p
               categorical_data))).
Proof.
  intros HG Hr Hc. unfold aggregate, row_call. simpl.
  rewrite load_drop, rows_reduced_value by done.
  rewrite take_drop_loads; [done|].
  rewrite length_phase1. unfold workspace_size.
  revert HG. generalize (num_grove forest grove_size). intros G HG.
  assert (r * num_outputs + c + 1 ≤ row_count * num_outputs) by nia.
  nia.
Qed.

(** X8: the iterations of the two parallel loops of [infer_kernel_cpu]
    may run in any order.  For a forest with a tree, whatever the order
    of the tasks and the order of the rows, the workspace is left the
    same and every row's invocation of the postprocessor has the same
    arguments and is handed the same value for every class as when the
    loops run in index order; with a postprocessor that works on the
    values it is handed and stores one result per value, the output
    buffer is the same too. *)
Theorem parallel_loops_in_any_order {V} `{Arith V} {root_t cat_t : Type}
    (postproc : list V → nat → nat → list V) (transform : list V → list V)
    (ev : evaluator V root_t cat_t) (has_categorical_nodes : bool)
    (forest : forest_t root_t) (input : list V)
    (row_count col_count num_outputs chunk_size grove_size : nat)
    (vector_output_p : option (list V)) (categorical_data : option cat_t)
    (task_order row_order : list nat) (out : list V) :
  0 < chunk_size → 0 < grove_size → 0 < num_outputs →
  0 < tree_count forest →
  task_order ≡ₚ range 0 (task_count forest row_count chunk_size grove_size) →
  row_order ≡ₚ range 0 row_count →
  workspace
    (infer_kernel_cpu_in_order postproc ev has_categorical_nodes forest
       input row_count col_count num_outputs chunk_size grove_size
       vector_output_p categorical_data task_order row_order out)
  = workspace
      (infer_kernel_cpu postproc ev has_categorical_nodes forest input
         row_count col_count num_outputs chunk_size grove_size
         vector_output_p categorical_data out)
  ∧ Forall2
      (λ r call,
         pc_output_count call = num_outputs
         ∧ pc_out call = r * num_outputs
         ∧ pc_fourth call = num_grove forest grove_size
         ∧ ∀ c, c < num_outputs →
                aggregate call c
                = aggregate
                    (row_call ev has_categorical_nodes forest input
                       row_count col_count num_outputs chunk_size
                       grove_size vector_output_p categorical_data r) c)
      row_order
      (calls
         (infer_kernel_cpu_in_order postproc ev has_categorical_nodes
            forest input row_count col_count num_outputs chunk_size
            grove_size vector_output_p categorical_data task_order
            row_order out))
  ∧ (reads_at_stride postproc transform →
     (∀ l, length (transform l) = length l) →
     output
       (infer_kernel_cpu_in_order postproc ev has_categorical_nodes forest
          input row_count col_count num_outputs chunk_size grove_size
          vector_output_p categorical_data task_order row_order out)
     = output
         (infer_kernel_cpu postproc ev has_categorical_nodes forest input
            row_count col_count num_outputs chunk_size grove_size
            vector_output_p categorical_data out)).
Proof.
  intros Hcs Hgs Hn HT Htasks Hrows.
  assert (0 < num_grove forest grove_size) as HG.
  { unfold num_grove, num_tree. apply lt_ceildiv; [done|lia]. }
  assert (NoDup row_order) as Hnodup.
  { rewrite Hrows. apply NoDup_seq. }
  assert (∀ r, r ∈ row_order → r < row_count) as Hbound.
  { intros r Hr. rewrite Hrows in Hr. apply elem_of_range in Hr. lia. }
  unfold infer_kernel_cpu_in_order, infer_kernel_cpu.
  rewrite (schedule_independent ev has_categorical_nodes forest input
             row_count col_count num_outputs chunk_size grove_size
             vector_output_p categorical_data task_order) by done.
  rewrite !process_rows_in_order. simpl.
  pose proof (calls_in_order_aggregates forest row_count num_outputs
                grove_size
                (phase1 ev has_categorical_nodes forest input row_count
                   col_count num_outputs chunk_size grove_size
                   vector_output_p categorical_data)) as Hcalls.
  split_and!.
  - apply (reduce_rows_perm forest row_count); [done..|].
    apply length_phase1.
  - eapply Forall2_impl.
    + apply Hcalls; [done..|apply length_phase1|done].
    + intros r call (Hr & Hcount & Hout & Hfourth & Hagg).
      split_and!; [done..|]. intros c Hc.
      rewrite Hagg by done. symmetry.
      by apply aggregate_row_call_cells.
  - intros Hpp Hlen.
    rewrite (outputs_of_calls postproc forest row_count num_outputs
               grove_size transform _ row_order _ Hpp
               (Hcalls row_order _ HG Hnodup Hbound (length_phase1 _ _ _ _
                  _ _ _ _ _ _ _) (λ _ _ _ _, eq_refl))).
    assert (∀ r, r ∈ range 0 row_count → r < row_count) as Hbound'.
    { intros r Hr%elem_of_range. lia. }
    rewrite (outputs_of_calls postproc forest row_count num_outputs
               grove_size transform _ (range 0 row_count) _ Hpp
               (Hcalls (range 0 row_count) _ HG (NoDup_seq _ _) Hbound'
                  (length_phase1 _ _ _ _ _ _ _ _ _ _ _)
                  (λ _ _ _ _, eq_refl))).
    apply fold_left_list_inserts_perm; [done|].
    intros r. rewrite Hlen, length_map. unfold range.
    rewrite length_seq. lia.
Qed.

(** ** Instances *)

Lemma infer_kernel_cpu_in_index_order {V} `{Arith V} {root_t cat_t : Type}
    (postproc : list V → nat → nat → list V)
    (ev : evaluator V root_t cat_t) (has_categorical_nodes : bool)
    (forest : forest_t root_t) (input : list V)
    (row_count col_count num_outputs chunk_size grove_size : nat)
    (vector_output_p : option (list V)) (categorical_data : option cat_t)
    (out : list V) :
  infer_kernel_cpu_in_order postproc ev has_categorical_nodes forest input
    row_count col_count num_outputs chunk_size grove_size vector_output_p
    categorical_data
    (range 0 (task_count forest row_count chunk_size grove_size))
    (range 0 row_count) out
  = infer_kernel_cpu postproc ev has_categorical_nodes forest input
      row_count col_count num_outputs chunk_size grove_size vector_output_p
      categorical_data out.
Proof. reflexivity. Qed.

Lemma chunk_size_irrelevant_witness :
  infer_kernel_cpu identity_postproc leaf_evaluator false four_trees [] 3 0
    3 1 2 None None [7; 7; 7; 7; 7; 7; 7; 7; 7; 7]%Z
  = infer_kernel_cpu identity_postproc leaf_evaluator false four_trees [] 3
      0 3 2 2 None None [7; 7; 7; 7; 7; 7; 7; 7; 7; 7]%Z.
Proof.
  apply (chunk_size_irrelevant identity_postproc leaf_evaluator false
           four_trees [] 3 0 3 2 None None 1 2); lia.
Defined.

Lemma every_tree_on_every_row_once_witness :
  evaluations four_trees 3 2 3
  ≡ₚ flat_map (λ r, map (λ t, (r, t)) (range 0 (tree_count four_trees)))
       (range 0 3)
  ∧ length (evaluations four_trees 3 2 3) = 3 * tree_count four_trees.
Proof. apply (every_tree_on_every_row_once four_trees 3 2 3); lia. Defined.

Example evaluations_of_four_trees :
  evaluations four_trees 3 2 3
  = [ (0, 0); (0, 1); (0, 2); (1, 0); (1, 1); (1, 2); (2, 0); (2, 1);
      (2, 2); (0, 3); (1, 3); (2, 3) ].
Proof. reflexivity. Qed.

Lemma task_size_witness :
  1 ≤ length (chunk_rows 3 2 (3 mod num_chunk 3 2)) ≤ 2
  ∧ 1 ≤ length (grove_trees four_trees 3 (3 / num_chunk 3 2)) ≤ 3
  ∧ length (task_evaluations four_trees 3 2 3 3)
    = length (chunk_rows 3 2 (3 mod num_chunk 3 2))
      * length (grove_trees four_trees 3 (3 / num_chunk 3 2)).
Proof.
  apply (task_size four_trees 3 2 3 3); [lia|lia|vm_compute; lia].
Defined.

Lemma reduction_in_bounds_witness :
  (0 < tree_count four_trees →
   reduction_store four_trees 3 2 1 2 < workspace_size four_trees 2 3 2
   ∧ ∀ i,
       i ∈ reduction_loads four_trees 3 2 1 2 →
       i < workspace_size four_trees 2 3 2)
  ∧ (tree_count four_trees = 0 →
     workspace_size four_trees 2 3 2 = 0
     ∧ reduction_loads four_trees 3 2 1 2 = []
     ∧ reduction_store four_trees 3 2 1 2 = 0).
Proof. apply (reduction_in_bounds four_trees 2 3 2 1 2); lia. Defined.

(** A forest without trees: the workspace is empty and the reduction of
    class 0 of row 0 stores at index 0. *)
Example empty_forest_reduction :
  workspace_size (forest_of_leaves (V:=Z) []) 2 3 2 = 0
  ∧ reduction_store (forest_of_leaves (V:=Z) []) 3 2 0 0 = 0.
Proof. by split. Qed.

Lemma no_rows_no_work_witness :
  task_count four_trees 0 2 2 = 0
  ∧ infer_kernel_cpu identity_postproc leaf_evaluator false four_trees [] 0
      0 3 2 2 None None [7; 7; 7]%Z
    = {| workspace := []; output := [7; 7; 7]%Z; calls := [] |}.
Proof.
  apply (no_rows_no_work identity_postproc leaf_evaluator false four_trees
           [] 0 3 2 2 None None [7; 7; 7]%Z); lia.
Defined.

Lemma whole_forest_groves_agree_witness :
  infer_kernel_cpu identity_postproc leaf_evaluator false four_trees [] 3 0
    3 1 4 None None [7; 7; 7; 7; 7; 7; 7; 7; 7; 7]%Z
  = infer_kernel_cpu identity_postproc leaf_evaluator false four_trees [] 3
      0 3 64 64 None None [7; 7; 7; 7; 7; 7; 7; 7; 7; 7]%Z.
Proof.
  apply (whole_forest_groves_agree identity_postproc leaf_evaluator false
           four_trees [] 3 0 3 None None 1 4 64 64);
    (lia || (simpl; lia)).
Defined.

Lemma writes_in_bounds_witness :
  8 < workspace_size four_trees 3 3 2.
Proof.
  apply (writes_in_bounds leaf_evaluator false four_trees [] 3 0 3 2 2
           None None 0 8); [lia|vm_compute; lia|].
  apply list_elem_of_In. vm_compute. tauto.
Defined.

Lemma parallel_loops_in_any_order_witness :
  output
    (infer_kernel_cpu_in_order identity_postproc leaf_evaluator false
       four_trees [] 3 0 3 2 2 None None [3; 1; 0; 2] [2; 0; 1]
       [7; 7; 7; 7; 7; 7; 7; 7; 7; 7]%Z)
  = output
      (infer_kernel_cpu identity_postproc leaf_evaluator false four_trees
         [] 3 0 3 2 2 None None [7; 7; 7; 7; 7; 7; 7; 7; 7; 7]%Z).
Proof.
  destruct (parallel_loops_in_any_order identity_postproc id leaf_evaluator
              false four_trees [] 3 0 3 2 2 None None [3; 1; 0; 2]
              [2; 0; 1] [7; 7; 7; 7; 7; 7; 7; 7; 7; 7]%Z)
    as (_ & _ & Hout); [lia|lia|lia|simpl; lia| | |].
  - apply (bool_decide_unpack _). by vm_compute.
  - apply (bool_decide_unpack _). by vm_compute.
  - apply Hout; [|done]. intros val output_count fourth. reflexivity.
Defined.
